(** * Streaming inference gateway: rate limiter, cache coordinator,
      stream registry and gateway relay of the NestJS backend.

    The services are embedded as executable functions over an explicit
    model of the shared [cacheManager] (a key/value store with per-key
    expiry whose operations may throw).  Time is a [Z] count of
    milliseconds, as [Date.now()] gives it.  Part I holds the embedding,
    Part II the properties. *)

From Stdlib Require Import ZArith NArith String Ascii.
From stdpp Require Import gmap strings list pretty.

Local Open Scope string_scope.
Local Open Scope list_scope.
Local Open Scope Z_scope.

(** * Part I: the embedding *)

(** ** The shared cache manager *)

Module CacheManager.

(** Outcome of an awaited store operation: it fulfils with a value or
    rejects (connection lost, value refused by the store, ...). *)
Inductive Try (A : Type) : Type :=
| Ok (a : A)
| Throw.
Arguments Ok {A} a.
Arguments Throw {A}.

(** Which members of a type of stored values are [undefined] and which
    are [null]: the stores refuse some of them, see [isCacheable]. *)
Class Nullish (V : Type) : Type := {
  is_undefined : V → bool;
  is_null : V → bool
}.

(** Numbers, objects and arrays are neither. *)
Definition never_nullish (V : Type) : Nullish V :=
  {| is_undefined := λ _, false; is_null := λ _, false |}.

#[export] Instance Z_nullish : Nullish Z := never_nullish Z.

(** [entries] maps a key to its value and the instant past which it is
    stale, [None] for an entry that never expires.
    [faults] schedules the failures of the coming operations: each
    operation that reaches the store consumes the head, [true] makes it
    throw, and an empty schedule means the store stays healthy.
    [ttl_unit] is the number of milliseconds the store counts per unit of
    the [ttl] argument: 1 for the two stores of app.module.ts.
    [shares_objects] tells the in-memory fallback, whose [get] hands out
    the stored object itself, from the Redis store, which keeps the JSON
    text of a value and hands out a fresh parse of it, every [Date] of the
    value being a string by then.
    Entries leave the store by [del] or by expiry only: the in-memory
    store is taken to stay below its bound of 100 entries. *)
Record Cache (V : Type) : Type := mkCache {
  entries : gmap string (V * option Z);
  faults : list bool;
  ttl_unit : Z;
  shares_objects : bool
}.
Arguments mkCache {V} _ _ _ _.
Arguments entries {V} _.
Arguments faults {V} _.
Arguments ttl_unit {V} _.
Arguments shares_objects {V} _.

(** An entry is served up to and including the instant it expires at,
    and is stale after it. *)
Definition live (now : Z) (expires : option Z) : bool :=
  match expires with
  | Some e => now <=? e
  | None => true
  end.

Section Ops.
Context {V : Type}.

Definition with_entries (c : Cache V) (m : gmap string (V * option Z)) : Cache V :=
  mkCache m (faults c) (ttl_unit c) (shares_objects c).

Definition next_fault (c : Cache V) : bool * Cache V :=
  match faults c with
  | [] => (false, c)
  | b :: fs => (b, mkCache (entries c) fs (ttl_unit c) (shares_objects c))
  end.

(** What a successful [get] sees at instant [now]. *)
Definition peek (key : string) (now : Z) (c : Cache V) : option V :=
  match entries c !! key with
  | Some (v, expires) => if live now expires then Some v else None
  | None => None
  end.

Definition get (key : string) (now : Z) (c : Cache V) : Try (option V) * Cache V :=
  let (boom, c1) := next_fault c in
  if boom then (Throw, c1) else (Ok (peek key now c1), c1).

(** When an entry set at [now] with [ttl] expires: a [ttl] of 0 means
    never. *)
Definition expiry (ttl : Z) (now : Z) (c : Cache V) : option Z :=
  if ttl =? 0 then None else Some (now + ttl * ttl_unit c).

(** [isCacheable(value)]: [value !== undefined] for the in-memory store,
    [value !== undefined && value !== null] for the Redis store. *)
Definition isCacheable `{Nullish V} (c : Cache V) (v : V) : bool :=
  negb (is_undefined v) && (negb (is_null v) || shares_objects c).

(** [set(key, value, ttl)]: a value that is not cacheable is refused
    before the store is reached. *)
Definition set `{Nullish V} (key : string) (v : V) (ttl : Z) (now : Z) (c : Cache V)
  : Try unit * Cache V :=
  if isCacheable c v then
    let (boom, c1) := next_fault c in
    if boom then (Throw, c1)
    else (Ok tt, with_entries c1 (<[key := (v, expiry ttl now c1)]> (entries c1)))
  else (Throw, c).

Definition del (key : string) (c : Cache V) : Try unit * Cache V :=
  let (boom, c1) := next_fault c in
  if boom then (Throw, c1)
  else (Ok tt, with_entries c1 (delete key (entries c1))).

Definition live_keys (now : Z) (c : Cache V) : list string :=
  (map_to_list (filter (λ kv, live now kv.2.2 = true) (entries c))).*1.

(** [store.keys()] *)
Definition keys (now : Z) (c : Cache V) : Try (list string) * Cache V :=
  let (boom, c1) := next_fault c in
  if boom then (Throw, c1) else (Ok (live_keys now c1), c1).

(** A write through a reference obtained from [get]: it reaches the
    stored object only when the store shares its objects. *)
Definition mutate (key : string) (f : V → V) (c : Cache V) : Cache V :=
  if shares_objects c
  then with_entries c (alter (λ e, (f e.1, e.2)) key (entries c))
  else c.

Definition healthy (c : Cache V) : Prop := faults c = [].

End Ops.

End CacheManager.

(** ** Rate limiter (rate-limit/rate-limit.service.ts) *)

Module RateLimitService.
Import CacheManager.

Definition ratelimit_key (identifier : string) : string :=
  "ratelimit:" +:+ identifier.

(** [checkLimit(identifier, limit, windowSeconds)].  Every exception of
    the store is caught and answered with [true]. *)
Definition checkLimit (identifier : string) (limit windowSeconds : Z)
    (now : Z) (c : Cache Z) : bool * Cache Z :=
  let key := ratelimit_key identifier in
  match get key now c with
  | (Throw, c1) => (true, c1)
  | (Ok None, c1) =>
      (* First request in window *)
      match set key 1 windowSeconds now c1 with
      | (_, c2) => (true, c2)
      end
  | (Ok (Some current), c1) =>
      if limit <=? current then (false, c1)
      else
        (* Increment counter *)
        match set key (current + 1) windowSeconds now c1 with
        | (_, c2) => (true, c2)
        end
  end.

(** The count an observer reads at [now] ([getCurrentCount] before its
    [|| 0]). *)
Definition stored_count (identifier : string) (now : Z) (c : Cache Z) : option Z :=
  peek (ratelimit_key identifier) now c.

(** The count held in the store, whether or not its key has expired. *)
Definition raw_count (identifier : string) (c : Cache Z) : option Z :=
  fst <$> entries c !! ratelimit_key identifier.

(** A burst of requests of one identity, at the given instants. *)
Fixpoint serve (identifier : string) (limit windowSeconds : Z)
    (times : list Z) (c : Cache Z) : list bool * Cache Z :=
  match times with
  | [] => ([], c)
  | t :: ts =>
      let (b, c1) := checkLimit identifier limit windowSeconds t c in
      let (bs, c2) := serve identifier limit windowSeconds ts c1 in
      (b :: bs, c2)
  end.

(** The requests at [times] all fall in the window that is open in [c]:
    the key has not expired when each of them arrives. *)
Fixpoint same_window (identifier : string) (limit windowSeconds : Z)
    (times : list Z) (c : Cache Z) : Prop :=
  match times with
  | [] => True
  | t :: ts =>
      is_Some (stored_count identifier t c)
      ∧ same_window identifier limit windowSeconds ts
          (checkLimit identifier limit windowSeconds t c).2
  end.

(** [getRemainingRequests(identifier, limit)]; nothing is caught here. *)
Definition getRemainingRequests (identifier : string) (limit : Z) (now : Z)
    (c : Cache Z) : Try Z * Cache Z :=
  match get (ratelimit_key identifier) now c with
  | (Throw, c1) => (Throw, c1)
  | (Ok current, c1) => (Ok (Z.max 0 (limit - default 0 current)), c1)
  end.

(** [getCurrentCount(identifier)] *)
Definition getCurrentCount (identifier : string) (now : Z) (c : Cache Z)
  : Try Z * Cache Z :=
  match get (ratelimit_key identifier) now c with
  | (Throw, c1) => (Throw, c1)
  | (Ok current, c1) => (Ok (default 0 current), c1)
  end.

(** [resetLimit(identifier)] *)
Definition resetLimit (identifier : string) (c : Cache Z) : Try unit * Cache Z :=
  del (ratelimit_key identifier) c.

(** A store that counts its [ttl] in seconds and holds nothing yet. *)
Definition empty_counter_store : Cache Z := mkCache ∅ [] 1000 false.

End RateLimitService.

(** ** Rate-limit guard (the RateLimitGuard) *)

Module RateLimitGuard.
Import CacheManager RateLimitService.

(** The three [X-RateLimit-*] headers of an admitted response. *)
Record Headers : Type := mkHeaders {
  x_limit : Z;
  x_remaining : Z;
  x_window : Z
}.

(** What [canActivate] settles with: [true], with the headers it has set
    if it got that far, or the 429 [HttpException] and the [remaining],
    [limit] and [window] of its body. *)
Inductive Verdict : Type :=
| Activated (headers : option Headers)
| TooManyRequests (remaining limit window : Z).

(** [user ? `user:${user.id}` : `ip:${request.ip}`] *)
Definition identifier_of (user : option string) (ip : string) : string :=
  match user with
  | Some id => "user:" +:+ id
  | None => "ip:" +:+ ip
  end.

(** [window || 60] *)
Definition window_or_default (window : option Z) : Z :=
  match window with
  | Some w => if w =? 0 then 60 else w
  | None => 60
  end.

(** [canActivate(context)]; [limit] and [window] are the metadata the
    decorator left, [user] the id of [request.user] and [ip] the
    [request.ip].  The [catch] rethrows the [HttpException] and answers
    [true] to anything else. *)
Definition canActivate (limit window : option Z) (user : option string)
    (ip : string) (now : Z) (c : Cache Z) : Verdict * Cache Z :=
  match limit with
  | None | Some 0 => (Activated None, c) (* if (!limit) *)
  | Some limit =>
      let identifier := identifier_of user ip in
      let window := window_or_default window in
      let (allowed, c1) := checkLimit identifier limit window now c in
      if negb allowed then
        match getRemainingRequests identifier limit now c1 with
        | (Throw, c2) => (Activated None, c2)
        | (Ok remaining, c2) =>
            match getCurrentCount identifier now c2 with
            | (Throw, c3) => (Activated None, c3)
            | (Ok _, c3) => (TooManyRequests (Z.max 0 remaining) limit window, c3)
            end
        end
      else
        (* Add rate limit info to response headers *)
        match getRemainingRequests identifier limit now c1 with
        | (Throw, c2) => (Activated None, c2)
        | (Ok remaining, c2) =>
            (Activated (Some (mkHeaders limit remaining window)), c2)
        end
  end.

End RateLimitGuard.

(** ** Cache coordinator (the CacheService of cache/cache.module.ts) *)

Module CacheService.
Import CacheManager.

(** The JavaScript values a factory may produce and the cache may hold. *)
#[warnings="-register-all"]
Inductive JsValue : Type :=
| JUndefined
| JNull
| JBool (b : bool)
| JNum (n : Z)
| JStr (s : string)
| JArr (items : list JsValue).

#[export] Instance JsValue_nullish : Nullish JsValue :=
  {| is_undefined := λ v, match v with JUndefined => true | _ => false end;
     is_null := λ v, match v with JNull => true | _ => false end |}.

(** [cached !== undefined && cached !== null] *)
Definition is_present (v : JsValue) : bool :=
  match v with
  | JUndefined | JNull => false
  | _ => true
  end.

(** What the caller of a service method can catch. *)
Inductive Exn : Type :=
| CacheFailure
| FactoryFailure (message : string).

Inductive Settled : Type :=
| Fulfilled (v : JsValue)
| Rejected (e : Exn).

(** One invocation of the factory either yields a value or throws. *)
Inductive FactoryResult : Type :=
| Yields (v : JsValue)
| Fails (message : string).

Definition settle (r : FactoryResult) : Settled :=
  match r with
  | Yields v => Fulfilled v
  | Fails m => Rejected (FactoryFailure m)
  end.

(** The store together with the number of times the factory has run;
    [factory n] is what its invocation number [n] does. *)
Record World : Type := mkWorld {
  cache : Cache JsValue;
  calls : nat
}.

(** The [catch] block of [getOrSet]: log, then [return factory()]. *)
Definition bypass (factory : nat → FactoryResult) (c : Cache JsValue) (n : nat)
  : Settled * World :=
  (settle (factory n), mkWorld c (S n)).

Definition getOrSet (key : string) (factory : nat → FactoryResult) (ttl : Z)
    (now : Z) (w : World) : Settled * World :=
  match get key now (cache w) with
  | (Throw, c1) => bypass factory c1 (calls w)
  | (Ok cached, c1) =>
      let cached := default JUndefined cached in
      if is_present cached then (Fulfilled cached, mkWorld c1 (calls w))
      else
        match factory (calls w) with
        | Fails _ => bypass factory c1 (S (calls w))
        | Yields value =>
            match set key value ttl now c1 with
            | (Throw, c2) => bypass factory c2 (S (calls w))
            | (Ok _, c2) => (Fulfilled value, mkWorld c2 (S (calls w)))
            end
        end
  end.

(** What [getOrSet] takes for a miss. *)
Definition misses (key : string) (now : Z) (w : World) : Prop :=
  is_present (default JUndefined (peek key now (cache w))) = false.

Definition fresh_world : World := mkWorld (mkCache ∅ [] 1000 false) 0.

(** A conversation list that is empty, and a failing query that succeeds
    when run again. *)
Definition empty_list_factory : nat → FactoryResult := λ _, Yields (JArr []).
Definition flaky_factory : nat → FactoryResult :=
  λ n, match n with O => Fails "connection reset" | S _ => Yields (JNum 7) end.

(** The two stores of app.module.ts with nothing in them, the in-memory
    fallback and the Redis store; both count their [ttl] in milliseconds. *)
Definition memory_world : World := mkWorld (mkCache ∅ [] 1 true) 0.
Definition redis_world : World := mkWorld (mkCache ∅ [] 1 false) 0.

(** The in-memory store holding a count of 0 that never expires. *)
Definition zero_cached_world : World :=
  mkWorld (mkCache {[ "unread:u1" := (JNum 0, None) ]} [] 1 true) 0.

(** A lookup that finds nothing, a function without a [return], and a
    query that fails every time, with another message the second time. *)
Definition null_factory : nat → FactoryResult := λ _, Yields JNull.
Definition undefined_factory : nat → FactoryResult := λ _, Yields JUndefined.
Definition failing_factory : nat → FactoryResult :=
  λ n, match n with
       | O => Fails "connection reset"
       | S _ => Fails "connection refused"
       end.

(** [key.includes(pattern)] *)
Fixpoint includes (key pattern : string) : bool :=
  String.prefix pattern key
  || match key with
     | EmptyString => false
     | String _ rest => includes rest pattern
     end.

(** The [for] loop of [invalidatePattern]; a throwing [del] leaves the
    loop. *)
Fixpoint del_each {V} (ks : list string) (c : Cache V) : Try unit * Cache V :=
  match ks with
  | [] => (Ok tt, c)
  | k :: rest =>
      match del k c with
      | (Throw, c1) => (Throw, c1)
      | (Ok _, c1) => del_each rest c1
      end
  end.

(** [invalidatePattern] never rejects: its [catch] logs and returns. *)
Definition invalidatePattern {V} (pattern : string) (now : Z) (c : Cache V) : Cache V :=
  match keys now c with
  | (Throw, c1) => c1
  | (Ok ks, c1) =>
      let keysToDelete := List.filter (λ key, includes key pattern) ks in
      (del_each keysToDelete c1).2
  end.

Definition conversation_key (conversationId : string) : string :=
  "conversation:" +:+ conversationId.
Definition messages_pattern (conversationId : string) : string :=
  "messages:" +:+ conversationId.
Definition files_pattern (conversationId : string) : string :=
  "files:" +:+ conversationId.

(** [invalidateConversation]: the first [del] is not guarded. *)
Definition invalidateConversation {V} (conversationId : string) (now : Z)
    (c : Cache V) : Try unit * Cache V :=
  match del (conversation_key conversationId) c with
  | (Throw, c1) => (Throw, c1)
  | (Ok _, c1) =>
      let c2 := invalidatePattern (messages_pattern conversationId) now c1 in
      let c3 := invalidatePattern (files_pattern conversationId) now c2 in
      (Ok tt, c3)
  end.

(** The keys [invalidateConversation] is meant to remove. *)
Definition targeted (conversationId key : string) : bool :=
  bool_decide (key = conversation_key conversationId)
  || includes key (messages_pattern conversationId)
  || includes key (files_pattern conversationId).

(** A store holding the cached views of conversation [c1] next to those
    of another conversation and of the owner's list. *)
Definition sample_cache : Cache JsValue :=
  mkCache (list_to_map
             [ ("conversation:c1", (JStr "detail", Some 600000));
               ("messages:c1", (JArr [], Some 300000));
               ("user:u1:messages:c1:page:2", (JArr [JStr "hello"], Some 300000));
               ("files:c1", (JArr [], Some 300000));
               ("messages:c2", (JArr [JStr "other"], Some 300000));
               ("conversations:u1", (JArr [JStr "c1"; JStr "c2"], Some 300000)) ])
          [] 1000 false.

End CacheService.

(** ** Conversation service: cached lookups (chat/chat.service.ts) *)

Module ChatService.
Import CacheManager CacheService.

(** JavaScript truthiness, as [if (!conversation)] tests it. *)
Definition truthy (v : JsValue) : bool :=
  match v with
  | JUndefined | JNull => false
  | JBool b => b
  | JNum n => negb (n =? 0)
  | JStr s => negb (bool_decide (s = ""))
  | JArr _ => true
  end.

(** [findConversationById(id, userId)]; [findOne id userId] is what the
    repository's [findOne({ where: { id, userId }, ... })] finds, [JNull]
    when there is no such row. *)
Definition findConversationById (findOne : string → string → JsValue)
    (id userId : string) (now : Z) (w : World) : Settled * World :=
  getOrSet (conversation_key id)
    (λ _, let conversation := findOne id userId in
          if truthy conversation then Yields conversation
          else Fails "Conversation not found")
    600 now w.

(** A repository with one conversation, [c1] of user [alice]. *)
Definition alices_repository : string → string → JsValue :=
  λ id userId,
    if bool_decide (id = "c1") && bool_decide (userId = "alice")
    then JArr [JStr "c1"; JStr "alice"; JStr "Holiday plans"]
    else JNull.

End ChatService.

(** ** Stream registry (the StreamService) *)

Module StreamService.
Import CacheManager.

(** [StreamInfo]; the three [Date] fields are kept as their
    [getTime()] value in milliseconds. *)
Record StreamInfo : Type := mkStreamInfo {
  streamId : string;
  userId : string;
  conversationId : string;
  createdAt : Z;
  lastActivityAt : Z;
  expiresAt : Z
}.

(** The registry keeps sessions under [stream:<id>] and the list of a
    user's stream ids under [user_streams:<userId>]. *)
Inductive Stored : Type :=
| Session (info : StreamInfo)
| StreamIds (ids : list string).

#[export] Instance Stored_nullish : Nullish Stored := never_nullish Stored.

Definition STREAM_TIMEOUT : Z := 300.

Definition stream_key (streamId : string) : string := "stream:" +:+ streamId.
Definition user_streams_key (userId : string) : string := "user_streams:" +:+ userId.

(** [registerStream(userId, conversationId)]; [uuid] is what [uuidv4()]
    returns and [now] what [new Date()] reads.  Nothing is caught here:
    a failing store operation rejects the call. *)
Definition registerStream (uuid : string) (userId conversationId : string)
    (now : Z) (c : Cache Stored) : Try string * Cache Stored :=
  let streamId := uuid in
  let expiresAt := now + STREAM_TIMEOUT * 1000 in
  let streamInfo := mkStreamInfo streamId userId conversationId now now expiresAt in
  let key := stream_key streamId in
  match set key (Session streamInfo) STREAM_TIMEOUT now c with
  | (Throw, c1) => (Throw, c1)
  | (Ok _, c1) =>
      (* Add to user's active streams list *)
      let userStreamsKey := user_streams_key userId in
      match get userStreamsKey now c1 with
      | (Throw, c2) => (Throw, c2)
      | (Ok (Some (Session _)), c2) => (Throw, c2) (* [push] is not a function *)
      | (Ok found, c2) =>
          let streams := match found with Some (StreamIds ids) => ids | _ => [] end in
          let push v := match v with StreamIds ids => StreamIds (ids ++ [streamId]) | _ => v end in
          let c3 := mutate userStreamsKey push c2 in
          match set userStreamsKey (StreamIds (streams ++ [streamId])) STREAM_TIMEOUT now c3 with
          | (Throw, c4) => (Throw, c4)
          | (Ok _, c4) => (Ok streamId, c4)
          end
      end
  end.

(** [Math.ceil(x / 1000)] on an integer number of milliseconds. *)
Definition ceil_seconds (x : Z) : Z := - ((- x) / 1000).

Definition touch (now : Z) (s : StreamInfo) : StreamInfo :=
  mkStreamInfo (streamId s) (userId s) (conversationId s) (createdAt s) now (expiresAt s).

(** [updateActivity(streamId)] at instant [now].  A session read from
    the Redis store has strings for its dates, and
    [stream.expiresAt.getTime()] throws a [TypeError] on it; nothing is
    caught here. *)
Definition updateActivity (streamId : string) (now : Z) (c : Cache Stored)
  : Try unit * Cache Stored :=
  let key := stream_key streamId in
  match get key now c with
  | (Throw, c1) => (Throw, c1)
  | (Ok None, c1) => (Ok tt, c1)
  | (Ok (Some (StreamIds _)), c1) => (Throw, c1) (* no [expiresAt] to read *)
  | (Ok (Some (Session stream)), c1) =>
      (* stream.lastActivityAt = new Date() *)
      let stream' := touch now stream in
      let write v := match v with Session s => Session (touch now s) | _ => v end in
      let c2 := mutate key write c1 in
      if shares_objects c1 then
        let ttl := ceil_seconds (expiresAt stream' - now) in
        if 0 <? ttl then set key (Session stream') ttl now c2
        else (Ok tt, c2)
      else (Throw, c2)
  end.

(** The session an observer finds under a stream id at [now]. *)
Definition observed (streamId : string) (now : Z) (c : Cache Stored) : option StreamInfo :=
  match peek (stream_key streamId) now c with
  | Some (Session s) => Some s
  | _ => None
  end.

(** The invariant the data model states for a session. *)
Definition expiry_follows_activity (s : StreamInfo) : Prop :=
  expiresAt s = lastActivityAt s + STREAM_TIMEOUT * 1000.

(** What [registerStream] sets up and [updateActivity] keeps: the expiry
    is the creation instant plus the timeout. *)
Definition expiry_follows_creation (s : StreamInfo) : Prop :=
  expiresAt s = createdAt s + STREAM_TIMEOUT * 1000.

(** [unregisterStream(streamId)] at instant [now]; nothing is caught.
    A stored value without a [userId] reads as [undefined]. *)
Definition unregisterStream (streamId : string) (now : Z) (c : Cache Stored)
  : Try unit * Cache Stored :=
  let key := stream_key streamId in
  match get key now c with
  | (Throw, c1) => (Throw, c1)
  | (Ok None, c1) => del key c1
  | (Ok (Some stream), c1) =>
      (* Remove from user's streams list *)
      let owner := match stream with Session s => userId s | StreamIds _ => "undefined" end in
      let userStreamsKey := user_streams_key owner in
      match get userStreamsKey now c1 with
      | (Throw, c2) => (Throw, c2)
      | (Ok (Some (Session _)), c2) => (Throw, c2) (* [filter] is not a function *)
      | (Ok found, c2) =>
          let streams := match found with Some (StreamIds ids) => ids | _ => [] end in
          match set userStreamsKey
                  (StreamIds (List.filter (λ sid, negb (bool_decide (sid = streamId))) streams))
                  STREAM_TIMEOUT now c2 with
          | (Throw, c3) => (Throw, c3)
          | (Ok _, c3) => del key c3
          end
      end
  end.

(** The loop shared by the two listings: [get] every key in turn and keep
    what is found. *)
Fixpoint fetch_each (keys : list string) (now : Z) (c : Cache Stored)
  : Try (list Stored) * Cache Stored :=
  match keys with
  | [] => (Ok [], c)
  | key :: rest =>
      match get key now c with
      | (Throw, c1) => (Throw, c1)
      | (Ok found, c1) =>
          match fetch_each rest now c1 with
          | (Throw, c2) => (Throw, c2)
          | (Ok streams, c2) =>
              (Ok (match found with Some stream => stream :: streams | None => streams end), c2)
          end
      end
  end.

(** [getUserActiveStreams(userId)] *)
Definition getUserActiveStreams (userId : string) (now : Z) (c : Cache Stored)
  : Try (list Stored) * Cache Stored :=
  match get (user_streams_key userId) now c with
  | (Throw, c1) => (Throw, c1)
  | (Ok (Some (Session _)), c1) => (Throw, c1) (* not iterable *)
  | (Ok found, c1) =>
      let streamIds := match found with Some (StreamIds ids) => ids | _ => [] end in
      fetch_each (List.map stream_key streamIds) now c1
  end.

(** [key.startsWith('stream:')] *)
Definition is_stream_key (key : string) : bool := String.prefix "stream:" key.

(** [getAllActiveStreams()] *)
Definition getAllActiveStreams (now : Z) (c : Cache Stored)
  : Try (list Stored) * Cache Stored :=
  match keys now c with
  | (Throw, c1) => (Throw, c1)
  | (Ok ks, c1) => fetch_each (List.filter is_stream_key ks) now c1
  end.

(** [getStreamCount()] *)
Definition getStreamCount (now : Z) (c : Cache Stored) : Try Z * Cache Stored :=
  match keys now c with
  | (Throw, c1) => (Throw, c1)
  | (Ok ks, c1) => (Ok (Z.of_nat (length (List.filter is_stream_key ks))), c1)
  end.

(** The loop of [cleanupExpiredStreams] over the streams listed; a value
    without an [expiresAt] compares as [NaN] and is passed over. *)
Fixpoint sweep (streams : list Stored) (now : Z) (c : Cache Stored)
  : Try unit * Cache Stored :=
  match streams with
  | [] => (Ok tt, c)
  | Session s :: rest =>
      if expiresAt s <=? now then
        match unregisterStream (streamId s) now c with
        | (Throw, c1) => (Throw, c1)
        | (Ok _, c1) => sweep rest now c1
        end
      else sweep rest now c
  | StreamIds _ :: rest => sweep rest now c
  end.

(** [cleanupExpiredStreams()], what every tick of the cleanup task runs. *)
Definition cleanupExpiredStreams (now : Z) (c : Cache Stored)
  : Try unit * Cache Stored :=
  match getAllActiveStreams now c with
  | (Throw, c1) => (Throw, c1)
  | (Ok streams, c1) => sweep streams now c1
  end.

(** Every session is kept under the key of its own id: what a registry
    built by [registerStream] looks like. *)
Definition well_keyed (c : Cache Stored) : Prop :=
  ∀ key s e, entries c !! key = Some (Session s, e) → key = stream_key (streamId s).

(** Whether the sweep over [streams] at [now] unregisters the stream kept
    under [key]. *)
Definition swept (streams : list Stored) (now : Z) (key : string) : bool :=
  existsb (λ stream,
             match stream with
             | Session s => (expiresAt s <=? now) && bool_decide (key = stream_key (streamId s))
             | StreamIds _ => false
             end) streams.

(** The stream ids listed for a user, as [(await get(...)) || []] reads
    them. *)
Definition listed_ids (userId : string) (now : Z) (c : Cache Stored) : list string :=
  match peek (user_streams_key userId) now c with
  | Some (StreamIds ids) => ids
  | _ => []
  end.

(** A registry that counts its [ttl] in seconds and holds nothing yet. *)
Definition empty_registry : Cache Stored := mkCache ∅ [] 1000 false.

(** The registries of app.module.ts with nothing in them, on the
    in-memory fallback and on the Redis store; both count their [ttl] in
    milliseconds. *)
Definition memory_registry : Cache Stored := mkCache ∅ [] 1 true.
Definition redis_registry : Cache Stored := mkCache ∅ [] 1 false.

End StreamService.

(** ** Gateway relay (ai-gateway/ai-gateway.service.ts) *)

Module AiGatewayService.
Import CacheManager.

(** *** Title heuristic

    A JavaScript string is a sequence of UTF-16 code units; [length],
    [substring] and [lastIndexOf] count code units. *)

Abbreviation jsstring := (list N).

Definition of_string (s : string) : jsstring :=
  List.map N_of_ascii (list_ascii_of_string s).

(** The code units [\s] matches and [trim] strips. *)
Definition is_space (c : N) : bool :=
  ((9 <=? c) && (c <=? 13) || (c =? 32) || (c =? 160) || (c =? 5760)
   || (8192 <=? c) && (c <=? 8202) || (c =? 8232) || (c =? 8233)
   || (c =? 8239) || (c =? 8287) || (c =? 12288) || (c =? 65279))%N.

(** [.], [!] and [?] *)
Definition is_terminal (c : N) : bool :=
  ((c =? 46) || (c =? 33) || (c =? 63))%N.

Fixpoint trim_start (s : jsstring) : jsstring :=
  match s with
  | c :: rest => if is_space c then trim_start rest else s
  | [] => []
  end.

Definition trim (s : jsstring) : jsstring :=
  rev (trim_start (rev (trim_start s))).

(** [replace(/\s+/g, ' ')]: every maximal run of white space becomes one
    space; [in_run] tells that the previous unit was white space. *)
Fixpoint squeeze (in_run : bool) (s : jsstring) : jsstring :=
  match s with
  | [] => []
  | c :: rest =>
      if is_space c
      then (if in_run then squeeze true rest else 32%N :: squeeze true rest)
      else c :: squeeze false rest
  end.

(** The longest prefix free of sentence-terminal marks, and what follows. *)
Fixpoint span_plain (s : jsstring) : jsstring * jsstring :=
  match s with
  | [] => ([], [])
  | c :: rest =>
      if is_terminal c then ([], s)
      else let (plain, tail) := span_plain rest in (c :: plain, tail)
  end.

(** [match(/^[^.!?]+[.!?]/)]: at least one unit that is no mark, greedily,
    then one mark. *)
Definition sentenceEndMatch (s : jsstring) : option jsstring :=
  match span_plain s with
  | ((_ :: _) as plain, mark :: _) => Some (plain ++ [mark])
  | _ => None
  end.

(** [lastIndexOf(' ')], [-1] when there is none. *)
Fixpoint lastIndexOf_from (i : Z) (found : Z) (s : jsstring) : Z :=
  match s with
  | [] => found
  | c :: rest => lastIndexOf_from (i + 1) (if (c =? 32)%N then i else found) rest
  end.

Definition lastIndexOf_space (s : jsstring) : Z := lastIndexOf_from 0 (-1) s.

Definition ellipsis : jsstring := of_string "...".

Definition normalize (message : jsstring) : jsstring :=
  squeeze false (trim message).

Definition truncate_title (cleanMessage : jsstring) : jsstring :=
  if (Z.of_nat (length cleanMessage) <=? 50) then cleanMessage
  else
    (* Find last word boundary within 50 chars *)
    let truncated := take 50 cleanMessage in
    let lastSpaceIndex := lastIndexOf_space truncated in
    if 30 <? lastSpaceIndex
    then take (Z.to_nat lastSpaceIndex) truncated ++ ellipsis
    else truncated ++ ellipsis.

Definition generateTitleFromMessage (message : jsstring) : jsstring :=
  (* Remove extra whitespace *)
  let cleanMessage := normalize message in
  match sentenceEndMatch cleanMessage with
  | Some matched =>
      let sentence := trim matched in
      if (Z.of_nat (length sentence) <=? 60) then sentence
      else truncate_title cleanMessage
  | None => truncate_title cleanMessage
  end.

(** Index of the first sentence-terminal mark of a string. *)
Fixpoint first_terminal (s : jsstring) : option nat :=
  match s with
  | [] => None
  | c :: rest => if is_terminal c then Some O else S <$> first_terminal rest
  end.

(** [k] is the index of the last space of [s]. *)
Definition last_space_at (s : jsstring) (k : nat) : Prop :=
  s !! k = Some 32%N ∧ ∀ j, (k < j)%nat → s !! j ≠ Some 32%N.

(** *** Retry wrapper *)

(** The fields of a thrown error the gateway looks at. *)
Record JsError : Type := mkJsError {
  name : string;
  code : option string;
  response_status : option Z;
  message : string
}.

(** What axios rejects with when the [signal] it was given aborts. *)
Definition CanceledError : JsError :=
  mkJsError "CanceledError" (Some "ERR_CANCELED") None "canceled".

(** The upstream stream of a response: its chunks and how it finishes.
    A chunk is the list of the lines [text.split] and [filter] leave of it,
    each by what the [data] listener makes of it; a line cut in two by the
    end of a chunk counts as the two lines it is read as.
    - [Frame content json]: [data: ] followed by the JSON text of a value
      other than [null]; [json] is what [JSON.stringify] gives back for it
      and [content] the text that [parsed.content || ''] adds to the
      response, if it adds any;
    - [DoneSentinel]: the line [data: [DONE]];
    - [Malformed]: [data: ] followed by what [JSON.parse] throws on, or by
      [null], on which [parsed.content] throws; the [catch] passes both
      over;
    - [Other]: a line without the [data: ] prefix. *)
Inductive Line : Type :=
| Frame (content : option jsstring) (json : string)
| DoneSentinel
| Malformed
| Other.

Inductive Finish : Type :=
| Ends
| Breaks (e : JsError).

Record AxiosResponse : Type := mkResponse {
  chunks : list (list Line);
  finish : Finish
}.

Inductive Settled (A : Type) : Type :=
| Resolved (a : A)
| Rejected (e : JsError).
Arguments Resolved {A} a.
Arguments Rejected {A} e.

(** What the engine does with one request when nothing aborts it: after
    [latency] milliseconds the call settles with [reply] (a response, an
    HTTP error status, a network error, axios' own timeout error). *)
Record Upstream : Type := mkUpstream {
  latency : Z;
  reply : Settled AxiosResponse
}.

(** An [AbortSignal] and the instant its [abort] event is dispatched, if
    ever. *)
Record AbortSignal : Type := mkSignal { fires_at : option Z }.

Definition AI_ENGINE_TIMEOUT : Z := 120000.
Definition MAX_RETRIES : Z := 3.

(** The instant the attempt's own [controller] aborts: when the timer set
    at the start of the attempt fires, or earlier when the external signal
    dispatches [abort] to the listener added at the start.  A signal that
    fired before the listener was added never calls it. *)
Definition abort_time (start : Z) (externalSignal : option AbortSignal) : Z :=
  let timer := start + AI_ENGINE_TIMEOUT in
  match externalSignal with
  | Some (mkSignal (Some t)) => if start <=? t then Z.min t timer else timer
  | _ => timer
  end.

(** One [axios.post] with [signal: controller.signal]: the instant it
    settles and how. *)
Definition axios_post (start : Z) (externalSignal : option AbortSignal)
    (u : Upstream) : Z * Settled AxiosResponse :=
  let aborted := abort_time start externalSignal in
  if aborted <? start + latency u then (aborted, Rejected CanceledError)
  else (start + latency u, reply u).

Inductive Event : Type :=
| Attempt (attempt : Z) (started : Z)
| Delay (from : Z) (ms : Z).

Record Run : Type := mkRun {
  events : list Event;
  settled_at : Z;
  outcome : Settled AxiosResponse
}.

Definition is_cancellation (error : JsError) : bool :=
  bool_decide (name error = "CanceledError")
  || bool_decide (code error = Some "ERR_CANCELED").

Definition is_client_error (error : JsError) : bool :=
  match response_status error with
  | Some status => (400 <=? status) && (status <? 500)
  | None => false
  end.

(** [Math.min(1000 * Math.pow(2, attempt - 1), 10000)] as the
    milliseconds [setTimeout] waits.  For an attempt below 1, which no
    caller passes, the power is a fraction; [setTimeout] truncates its
    delay and waits 1 ms at least. *)
Definition retry_delay (attempt : Z) : Z :=
  if 1 <=? attempt then Z.min (1000 * 2 ^ (attempt - 1)) 10000
  else Z.max 1 (1000 / 2 ^ (1 - attempt)).

(** [callAIEngineWithRetry(payload, attempt, externalSignal)] entered at
    instant [now]; [engine n] is the upstream's behaviour on attempt [n].
    The recursion is bounded by [fuel]. *)
Fixpoint retry (fuel : nat) (engine : Z → Upstream) (attempt : Z)
    (externalSignal : option AbortSignal) (now : Z) : option Run :=
  match fuel with
  | O => None
  | S fuel' =>
      match axios_post now externalSignal (engine attempt) with
      | (t, Resolved response) =>
          Some (mkRun [Attempt attempt now] t (Resolved response))
      | (t, Rejected error) =>
          (* Don't retry if client disconnected (abort signal triggered) *)
          if is_cancellation error
          then Some (mkRun [Attempt attempt now] t (Rejected error))
          (* Don't retry on 4xx errors (client errors) *)
          else if is_client_error error
          then Some (mkRun [Attempt attempt now] t (Rejected error))
          (* Retry on 5xx errors or network issues *)
          else if attempt <? MAX_RETRIES
          then
            let delay := retry_delay attempt in
            match retry fuel' engine (attempt + 1) None (t + delay) with
            | Some r =>
                Some (mkRun (Attempt attempt now :: Delay t delay :: events r)
                        (settled_at r) (outcome r))
            | None => None
            end
          (* All retries exhausted *)
          else Some (mkRun [Attempt attempt now] t (Rejected error))
      end
  end.

Definition callAIEngineWithRetry (engine : Z → Upstream) (attempt : Z)
    (externalSignal : option AbortSignal) (now : Z) : option Run :=
  retry (S (Z.to_nat (MAX_RETRIES - attempt))) engine attempt externalSignal now.

(** A failure that is neither a cancellation nor a client error: its
    name is not [CanceledError], its code is not [ERR_CANCELED], and its
    response, if it has one, carries no status from 400 to 499. *)
Definition other_failure (error : JsError) : Prop :=
  name error ≠ "CanceledError"
  ∧ code error ≠ Some "ERR_CANCELED"
  ∧ ∀ status, response_status error = Some status → status < 400 ∨ 499 < status.

(** The instants at which attempts were started. *)
Definition attempt_starts (evs : list Event) : list Z :=
  omap (λ ev, match ev with Attempt _ t => Some t | Delay _ _ => None end) evs.

(** *** The relay: [streamChat] *)

Inductive MessageRole : Type := USER | ASSISTANT.

(** The conversation service, an external collaborator: what each of its
    calls settles with.  A conversation is known by its id. *)
Record ChatService : Type := mkChatService {
  findConversationById : string → string → Settled string;
  createConversation : string → jsstring → Settled string;
  saveMessage : string → MessageRole → jsstring → Settled unit;
  getConversationMessages : string → Settled (list (MessageRole * jsstring))
}.

(** The value kept under [stream:<streamId>] while a relay runs. *)
Record Tracking : Type := mkTracking {
  tracked_user : string;
  tracked_conversation : option string;
  startTime : Z
}.

(** The [data] of the events pushed to the subscriber. *)
Inductive Payload : Type :=
| Forwarded (json : string)
| DoneEvent (conversationId : string) (timestamp : Z)
| ErrorEvent (error : string).

(** What the observer receives. *)
Inductive Emission : Type :=
| Next (data : Payload)
| Complete
| Error (e : JsError).

(** What a piece of the relay leaves behind: the emissions, the store,
    and the rejection of its promise when an [await] threw outside every
    [try]; nothing awaits or catches that promise. *)
Record Relay : Type := mkRelay {
  emitted : list Emission;
  store : Cache Tracking;
  unhandled : option JsError
}.

#[export] Instance Tracking_nullish : Nullish Tracking := never_nullish Tracking.

(** The error a failing store operation rejects with. *)
Definition StoreError : JsError := mkJsError "Error" None None "store failure".

Definition stream_key (streamId : string) : string := "stream:" +:+ streamId.

(** The lines of one chunk, inside the [data] listener. *)
Fixpoint on_lines (lines : list Line) (fullResponse : jsstring)
  : list Emission * jsstring :=
  match lines with
  | [] => ([], fullResponse)
  | Frame content json :: rest =>
      let (out, full) := on_lines rest (fullResponse ++ default [] content) in
      (Next (Forwarded json) :: out, full)
  | _ :: rest => on_lines rest fullResponse
  end.

(** The [data] listener over the chunks of a stream, [isStreamActive]
    being true throughout. *)
Fixpoint on_data (chunks : list (list Line)) (fullResponse : jsstring)
  : list Emission * jsstring :=
  match chunks with
  | [] => ([], fullResponse)
  | chunk :: rest =>
      let (out, full) := on_lines chunk fullResponse in
      let (out', full') := on_data rest full in
      (out ++ out', full')
  end.

(** The [end] listener, an [async] function whose promise the emitter
    drops. *)
Definition on_end (chat : ChatService) (conversation userId streamId : string)
    (fullResponse : jsstring) (now : Z) (c : Cache Tracking) : Relay :=
  (* Save AI response *)
  match saveMessage chat conversation ASSISTANT fullResponse with
  | Rejected e => mkRelay [] c (Some e)
  | Resolved _ =>
      match CacheService.del_each
              [ "conversation:" +:+ conversation; "messages:" +:+ conversation;
                "conversations:" +:+ userId; stream_key streamId ] c with
      | (Throw, c1) => mkRelay [] c1 (Some StoreError)
      | (Ok _, c1) => mkRelay [Next (DoneEvent conversation now); Complete] c1 None
      end
  end.

(** The [error] listener. *)
Definition on_error (error : JsError) (streamId : string) (c : Cache Tracking) : Relay :=
  match del (stream_key streamId) c with
  | (Throw, c1) => mkRelay [] c1 (Some StoreError)
  | (Ok _, c1) =>
      let text := if bool_decide (message error = "") then "Stream error occurred"
                  else message error in
      mkRelay [Next (ErrorEvent text); Error error] c1 None
  end.

Definition errorMessage (error : JsError) : string :=
  if bool_decide (name error = "AbortError") || bool_decide (code error = Some "ECONNABORTED")
  then "Request timeout. The AI is taking too long to respond. Please try again."
  else if bool_decide (code error = Some "ECONNREFUSED")
  then "AI service is temporarily unavailable. Please try again in a moment."
  else if bool_decide (response_status error = Some 429)
  then "Rate limit exceeded. Please wait a moment before trying again."
  else message error.

(** The [catch] block around the body of the relay. *)
Definition recover (error : JsError) (streamId : string) (c : Cache Tracking) : Relay :=
  match del (stream_key streamId) c with
  | (Throw, c1) => mkRelay [] c1 (Some StoreError)
  | (Ok _, c1) =>
      (* If client disconnected, don't send error - just cleanup and exit silently *)
      if is_cancellation error then mkRelay [Complete] c1 None
      else mkRelay [Next (ErrorEvent (errorMessage error)); Error error] c1 None
  end.

(** [streamChat] for a subscriber that stays until the stream is over.
    [signal] is the signal of the relay's own [abortController]. *)
Definition streamChat (chat : ChatService) (engine : Z → Upstream)
    (signal : AbortSignal) (userId : string) (message : jsstring)
    (conversationId : option string) (now : Z) (c : Cache Tracking)
  : option Relay :=
  let streamId := userId +:+ "-" +:+ pretty now in
  match set (stream_key streamId) (mkTracking userId conversationId now) 300 now c with
  | (Throw, c1) => Some (recover StoreError streamId c1)
  | (Ok _, c1) =>
      let resolved :=
        match conversationId with
        | Some id => findConversationById chat id userId
        | None => createConversation chat userId (generateTitleFromMessage message)
        end in
      match resolved with
      | Rejected e => Some (recover e streamId c1)
      | Resolved conversation =>
          match saveMessage chat conversation USER message with
          | Rejected e => Some (recover e streamId c1)
          | Resolved _ =>
              match getConversationMessages chat conversation with
              | Rejected e => Some (recover e streamId c1)
              | Resolved _ =>
                  match callAIEngineWithRetry engine 1 (Some signal) now with
                  | None => None
                  | Some run =>
                      match outcome run with
                      | Rejected e => Some (recover e streamId c1)
                      | Resolved response =>
                          let (out, fullResponse) := on_data (chunks response) [] in
                          let last :=
                            match finish response with
                            | Ends => on_end chat conversation userId streamId
                                        fullResponse (settled_at run) c1
                            | Breaks e => on_error e streamId c1
                            end in
                          Some (mkRelay (out ++ emitted last) (store last) (unhandled last))
                      end
                  end
              end
          end
      end
  end.

(** A terminal event of the response stream. *)
Definition is_terminal_emission (e : Emission) : bool :=
  match e with
  | Next (ErrorEvent _) | Next (DoneEvent _ _) | Complete | Error _ => true
  | Next (Forwarded _) => false
  end.

(** The frames among the lines of a stream, in the order they arrive:
    their content and their JSON text. *)
Definition frames_of (chunks : list (list Line)) : list (option jsstring * string) :=
  omap (λ line, match line with Frame content json => Some (content, json) | _ => None end)
       (concat chunks).

(** The three ways a relay ends for its subscriber. *)
Inductive Ending : list Emission → Prop :=
| SilentEnd : Ending [Complete]
| ErrorEnd text e : Ending [Next (ErrorEvent text); Error e]
| DoneEnd conversation at_ : Ending [Next (DoneEvent conversation at_); Complete].

(** The conversation the relay works on: the one found, or the one
    created under the generated title. *)
Definition resolve_conversation (chat : ChatService) (userId : string)
    (message : jsstring) (conversationId : option string) : Settled string :=
  match conversationId with
  | Some id => findConversationById chat id userId
  | None => createConversation chat userId (generateTitleFromMessage message)
  end.

(** The collaborator calls that precede the upstream call all succeed. *)
Definition ready (chat : ChatService) (userId : string) (message : jsstring)
    (conversationId : option string) (conversation : string) : Prop :=
  resolve_conversation chat userId message conversationId = Resolved conversation
  ∧ saveMessage chat conversation USER message = Resolved tt
  ∧ ∃ history, getConversationMessages chat conversation = Resolved history.

(** *** Sample inputs *)

(** Eighty characters of words, none of them a sentence-terminal mark. *)
Definition long_question : jsstring :=
  of_string "please summarise the attached quarterly reports and list the three biggest risks".

Definition ServiceUnavailable : JsError :=
  mkJsError "AxiosError" (Some "ERR_BAD_RESPONSE") (Some 503)
    "Request failed with status code 503".

Definition NotFound : JsError :=
  mkJsError "AxiosError" (Some "ERR_BAD_REQUEST") (Some 404)
    "Request failed with status code 404".

Definition TimeoutExceeded : JsError :=
  mkJsError "AxiosError" (Some "ECONNABORTED") None "timeout of 120000ms exceeded".

Definition hello_response : AxiosResponse :=
  mkResponse [[Frame (Some (of_string "Hello")) "{content:Hello}"; DoneSentinel]] Ends.

(** Fails with a 503 after 100 ms on the first attempt, answers after
    100 ms on the later ones. *)
Definition recovering_engine : Z → Upstream :=
  λ attempt, if attempt =? 1 then mkUpstream 100 (Rejected ServiceUnavailable)
             else mkUpstream 100 (Resolved hello_response).

(** Answers every request with a 404 after 100 ms. *)
Definition rejecting_engine : Z → Upstream :=
  λ _, mkUpstream 100 (Rejected NotFound).

(** Answers every request after 130 s. *)
Definition slow_engine : Z → Upstream :=
  λ _, mkUpstream 130000 (Resolved hello_response).

(** Gives up with axios' own timeout error after 120 s on the first
    attempt, answers after 100 ms on the later ones. *)
Definition timing_out_engine : Z → Upstream :=
  λ attempt, if attempt =? 1 then mkUpstream 120000 (Rejected TimeoutExceeded)
             else mkUpstream 100 (Resolved hello_response).

Definition answering_engine : Z → Upstream :=
  λ _, mkUpstream 100 (Resolved hello_response).

Definition DatabaseError : JsError :=
  mkJsError "QueryFailedError" None None "connection terminated unexpectedly".

(** A conversation service whose database refuses the messages of one
    role, if any, and takes everything else. *)
Definition chat_refusing (refused : option MessageRole) : ChatService :=
  mkChatService
    (λ id _, Resolved id)
    (λ _ _, Resolved "c-new")
    (λ _ role _,
       match refused, role with
       | Some USER, USER | Some ASSISTANT, ASSISTANT => Rejected DatabaseError
       | _, _ => Resolved tt
       end)
    (λ _, Resolved []).

Definition empty_tracking : Cache Tracking := mkCache ∅ [] 1000 false.

End AiGatewayService.

(** ** Redis reconnection (app.module.ts) *)

Module AppModule.

(** What [reconnectStrategy] returns: an [Error], which ends the
    reconnection, or the milliseconds to wait before the next try. *)
Inductive Reconnect : Type :=
| GiveUp
| ReconnectAfter (delay : Z).

Definition reconnectStrategy (retries : Z) : Reconnect :=
  if 10 <? retries then GiveUp
  else ReconnectAfter (Z.min (retries * 100) 3000).

End AppModule.

(** ** Demo limits (the DemoService) *)

Module DemoService.

Definition MAX_CONVERSATIONS : Z := 10.

Record DemoStats : Type := mkDemoStats {
  currentConversations : Z;
  maxConversations : Z;
  remainingSlots : Z;
  isLimitReached : bool
}.

(** [getDemoStats()], [count] being what the repository counts for the
    demo user. *)
Definition getDemoStats (count : Z) : DemoStats :=
  mkDemoStats count MAX_CONVERSATIONS (Z.max 0 (MAX_CONVERSATIONS - count))
    (MAX_CONVERSATIONS <=? count).

(** [createConversation()] up to its call of the conversation service:
    the [BadRequestException] with its [currentCount] and [maxLimit], or
    the number in the title [Demo Chat <n>] it asks for. *)
Inductive Creation : Type :=
| LimitReached (currentCount maxLimit : Z)
| DemoChat (number : Z).

Definition createConversation (count : Z) : Creation :=
  if MAX_CONVERSATIONS <=? count then LimitReached count MAX_CONVERSATIONS
  else DemoChat (count + 1).

End DemoService.

(** * Part II: properties *)

(** ** Facts about the cache manager *)

Section CacheManagerFacts.
Import CacheManager.
Context `{Nullish V}.
Implicit Types (c : Cache V) (key k : string) (now : Z).

Lemma live_mono now later expires :
  now ≤ later → live later expires = true → live now expires = true.
Proof.
  destruct expires as [e|]; simpl; [|done].
  intros Hle Hlive. apply Z.leb_le. apply Z.leb_le in Hlive. lia.
Qed.

Lemma live_stays_stale now later expires :
  now ≤ later → live now expires = false → live later expires = false.
Proof.
  intros Hle Hstale. destruct (live later expires) eqn:Hlive; [|done].
  by rewrite (live_mono _ _ _ Hle Hlive) in Hstale.
Qed.

Lemma live_expiry ttl now later c :
  live later (expiry ttl now c) = true ↔ ttl = 0 ∨ later ≤ now + ttl * ttl_unit c.
Proof.
  unfold expiry. destruct (Z.eqb_spec ttl 0) as [->|Hne]; simpl.
  - split; [by left|done].
  - rewrite Z.leb_le. split; [by right|]. by intros [|].
Qed.

Lemma live_expiry_now ttl now c :
  0 ≤ ttl * ttl_unit c → live now (expiry ttl now c) = true.
Proof. intros Hpos. apply live_expiry. right. lia. Qed.

Lemma get_healthy key now c :
  healthy c → get key now c = (Ok (peek key now c), c).
Proof. unfold healthy, get, next_fault. intros ->. reflexivity. Qed.

Lemma set_healthy key (v : V) ttl now c :
  healthy c → isCacheable c v = true →
  set key v ttl now c
  = (Ok tt, with_entries c (<[key := (v, expiry ttl now c)]> (entries c))).
Proof. unfold healthy, set, next_fault. intros -> ->. reflexivity. Qed.

(** Values that are never [undefined] or [null] are never refused. *)
Lemma set_plain key (v : V) ttl now c :
  healthy c →
  @set V (never_nullish V) key v ttl now c
  = (Ok tt, with_entries c (<[key := (v, expiry ttl now c)]> (entries c))).
Proof. unfold healthy, set, next_fault. simpl. intros ->. reflexivity. Qed.

(** A value the store refuses: [set] throws and nothing is stored. *)
Lemma set_refused key (v : V) ttl now c :
  isCacheable c v = false → set key v ttl now c = (Throw, c).
Proof. unfold set. by intros ->. Qed.

Lemma del_healthy key c :
  healthy c → del key c = (Ok tt, with_entries c (delete key (entries c))).
Proof. unfold healthy, del, next_fault. intros ->. reflexivity. Qed.

Lemma keys_healthy now c :
  healthy c → keys now c = (Ok (live_keys now c), c).
Proof. unfold healthy, keys, next_fault. intros ->. reflexivity. Qed.

Lemma healthy_with_entries c m : healthy c → healthy (with_entries c m).
Proof. exact id. Qed.

Lemma peek_Some_entry key now c (v : V) :
  peek key now c = Some v →
  ∃ expires, entries c !! key = Some (v, expires) ∧ live now expires = true.
Proof.
  unfold peek. destruct (entries c !! key) as [[v' e]|]; [|discriminate].
  destruct (live now e) eqn:Hlive; [|discriminate].
  intros [= ->]. eauto.
Qed.

Lemma peek_insert key k (v : V) expires now c :
  peek k now (with_entries c (<[key := (v, expires)]> (entries c)))
  = if decide (key = k)
    then (if live now expires then Some v else None)
    else peek k now c.
Proof.
  unfold peek, with_entries; simpl.
  rewrite lookup_insert. destruct (decide (key = k)); reflexivity.
Qed.

Lemma peek_delete key k now c :
  peek k now (with_entries c (delete key (entries c)))
  = if decide (key = k) then None else peek k now c.
Proof.
  unfold peek, with_entries; simpl.
  rewrite lookup_delete. destruct (decide (key = k)); reflexivity.
Qed.

End CacheManagerFacts.

(** ** Rate limiter *)

Section RateLimitFacts.
Import CacheManager RateLimitService.
Implicit Types (c : Cache Z) (id : string) (limit W now : Z).

Lemma checkLimit_fresh id limit W now c :
  healthy c → stored_count id now c = None →
  checkLimit id limit W now c
  = (true, with_entries c (<[ratelimit_key id := (1, expiry W now c)]> (entries c))).
Proof.
  intros Hc Hnone. unfold checkLimit, stored_count in *.
  rewrite (get_healthy _ _ _ Hc), Hnone, (set_plain _ _ _ _ _ Hc). reflexivity.
Qed.

Lemma checkLimit_admit id limit W now c n :
  healthy c → stored_count id now c = Some n → n < limit →
  checkLimit id limit W now c
  = (true, with_entries c (<[ratelimit_key id := (n + 1, expiry W now c)]> (entries c))).
Proof.
  intros Hc Hn Hlt. unfold checkLimit, stored_count in *.
  rewrite (get_healthy _ _ _ Hc), Hn.
  destruct (Z.leb_spec limit n); [lia|].
  rewrite (set_plain _ _ _ _ _ Hc). reflexivity.
Qed.

Lemma checkLimit_reject id limit W now c n :
  healthy c → stored_count id now c = Some n → limit ≤ n →
  checkLimit id limit W now c = (false, c).
Proof.
  intros Hc Hn Hle. unfold checkLimit, stored_count in *.
  rewrite (get_healthy _ _ _ Hc), Hn.
  destruct (Z.leb_spec limit n); [reflexivity|lia].
Qed.

Lemma stored_count_raw id now c n :
  stored_count id now c = Some n → raw_count id c = Some n.
Proof.
  unfold stored_count, raw_count. intros H.
  apply peek_Some_entry in H as (e & -> & _). reflexivity.
Qed.

Lemma raw_count_insert id c n e :
  raw_count id (with_entries c (<[ratelimit_key id := (n, e)]> (entries c))) = Some n.
Proof. unfold raw_count, with_entries; simpl. by rewrite lookup_insert_eq. Qed.

(** Inside an open window holding count [n], a burst brings the count to
    [min (n + length ts) limit] and admits request [i] exactly when
    [n + i < limit]. *)
Lemma serve_open_window id limit W ts : ∀ c n,
  healthy c → raw_count id c = Some n → n ≤ limit →
  same_window id limit W ts c →
  healthy (serve id limit W ts c).2
  ∧ raw_count id (serve id limit W ts c).2 = Some (Z.min (n + Z.of_nat (length ts)) limit)
  ∧ ∀ (i : nat) (b : bool), (serve id limit W ts c).1 !! i = Some b →
      b = bool_decide (n + Z.of_nat i < limit).
Proof.
  induction ts as [|t ts IH]; intros c n Hc Hraw Hle Hwin.
  - simpl. split; [done|]. split; [rewrite Hraw; f_equal; lia|].
    intros i b Hi. by rewrite lookup_nil in Hi.
  - simpl in Hwin. destruct Hwin as [[m Hm] Hwin].
    pose proof (stored_count_raw _ _ _ _ Hm) as Hraw'.
    rewrite Hraw in Hraw'. injection Hraw' as <-.
    destruct (Z.lt_ge_cases n limit) as [Hlt|Hge].
    + rewrite (checkLimit_admit _ _ _ _ _ _ Hc Hm Hlt) in Hwin.
      simpl. rewrite (checkLimit_admit _ _ _ _ _ _ Hc Hm Hlt).
      specialize (IH _ (n + 1) (healthy_with_entries _ _ Hc)
                    (raw_count_insert _ _ _ _) ltac:(lia) Hwin).
      destruct (serve id limit W ts _) as [bs c2]. simpl in *.
      destruct IH as (Hh & Hcount & Hres).
      split; [done|]. split; [rewrite Hcount; f_equal; lia|].
      intros [|i] b Hi; simpl in Hi.
      * injection Hi as <-. rewrite bool_decide_eq_true_2; [done|lia].
      * rewrite (Hres _ _ Hi). apply bool_decide_ext. lia.
    + rewrite (checkLimit_reject _ _ _ _ _ _ Hc Hm Hge) in Hwin.
      simpl. rewrite (checkLimit_reject _ _ _ _ _ _ Hc Hm Hge).
      specialize (IH _ n Hc Hraw Hle Hwin).
      destruct (serve id limit W ts c) as [bs c2]. simpl in *.
      destruct IH as (Hh & Hcount & Hres).
      split; [done|]. split; [rewrite Hcount; f_equal; lia|].
      intros [|i] b Hi; simpl in Hi.
      * injection Hi as <-. rewrite bool_decide_eq_false_2; [done|lia].
      * rewrite (Hres _ _ Hi). apply bool_decide_ext. lia.
Qed.

(** C4.  While the store is healthy and [1 ≤ limit]: when the first
    request of an identity opens a window (no live counter) and the
    following requests arrive while that counter is live, request number
    [i + 1] is admitted exactly when [i + 1 ≤ limit]; after [k] requests
    the stored count is [min k limit], so it is 1 after the first, grows
    by one per admitted request and never exceeds [limit]; a request that
    finds the count at [limit] or above is rejected and leaves the store as
    it was; and once the counter has expired the next request is admitted
    and the count restarts at 1. *)
Theorem checkLimit_window id limit W t0 ts c :
  healthy c → 1 ≤ limit →
  stored_count id t0 c = None →
  same_window id limit W ts (checkLimit id limit W t0 c).2 →
  let after := (serve id limit W (t0 :: ts) c).2 in
  (∀ (i : nat) (b : bool), (serve id limit W (t0 :: ts) c).1 !! i = Some b →
     b = bool_decide (Z.of_nat i + 1 ≤ limit))
  ∧ raw_count id after = Some (Z.min (Z.of_nat (length (t0 :: ts))) limit)
  ∧ (∀ now c' n, healthy c' → stored_count id now c' = Some n → limit ≤ n →
       checkLimit id limit W now c' = (false, c'))
  ∧ (∀ now, stored_count id now after = None →
       (checkLimit id limit W now after).1 = true
       ∧ raw_count id (checkLimit id limit W now after).2 = Some 1).
Proof.
  intros Hc Hlimit Hnone Hwin after. subst after.
  simpl. rewrite (checkLimit_fresh _ _ _ _ _ Hc Hnone) in *.
  pose proof (serve_open_window id limit W ts _ 1 (healthy_with_entries _ _ Hc)
                (raw_count_insert _ _ _ _) Hlimit Hwin) as (Hh & Hcount & Hres).
  destruct (serve id limit W ts _) as [bs c2]. simpl in *.
  split; [|split; [|split]].
  - intros [|i] b Hi; simpl in Hi.
    + injection Hi as <-. rewrite bool_decide_eq_true_2; [done|lia].
    + rewrite (Hres _ _ Hi). apply bool_decide_ext. lia.
  - rewrite Hcount. f_equal. lia.
  - intros now c' n Hc' Hn Hle. by apply checkLimit_reject with n.
  - intros now Hexp. rewrite (checkLimit_fresh _ _ _ _ _ Hh Hexp). simpl.
    split; [done|]. apply raw_count_insert.
Qed.

End RateLimitFacts.

Section RateLimitWitness.
Import CacheManager RateLimitService.

Lemma checkLimit_window_witness :
  (serve "ip:10.0.0.1" 2 60 [0; 10; 20] empty_counter_store).1 = [true; true; false]
  ∧ raw_count "ip:10.0.0.1" (serve "ip:10.0.0.1" 2 60 [0; 10; 20] empty_counter_store).2
    = Some 2.
Proof.
  assert (Hwin : same_window "ip:10.0.0.1" 2 60 [10; 20]
                   (checkLimit "ip:10.0.0.1" 2 60 0 empty_counter_store).2).
  { vm_compute. repeat split; eexists; reflexivity. }
  destruct (checkLimit_window "ip:10.0.0.1" 2 60 0 [10; 20] empty_counter_store
              eq_refl ltac:(lia) eq_refl Hwin) as (Hres & Hcount & _).
  split; [vm_compute; reflexivity|exact Hcount].
Defined.
End RateLimitWitness.

(** ** Cache coordinator: [getOrSet] *)

Section GetOrSetFacts.
Import CacheManager CacheService.
Implicit Types (w : World) (key : string) (factory : nat → FactoryResult).

Lemma is_present_spec v : is_present v = true ↔ v ≠ JUndefined ∧ v ≠ JNull.
Proof. destruct v; simpl; split; try done; by intros [??]. Qed.

Lemma misses_spec key now w :
  misses key now w
  ↔ ∀ v, peek key now (cache w) = Some v → v = JUndefined ∨ v = JNull.
Proof.
  unfold misses. destruct (peek key now (cache w)) as [v0|]; simpl.
  - split.
    + intros Hv v [= <-]. destruct v0; simpl in Hv; try done; [by left|by right].
    + intros Hv. by destruct (Hv v0 eq_refl) as [-> | ->].
  - split; [by intros _ v|done].
Qed.

(** Both stores take a value that is neither [undefined] nor [null]. *)
Lemma isCacheable_present (c : Cache JsValue) v :
  is_present v = true → isCacheable c v = true.
Proof. by destruct v. Qed.

Lemma getOrSet_hit key factory ttl now w v :
  healthy (cache w) → peek key now (cache w) = Some v → is_present v = true →
  getOrSet key factory ttl now w = (Fulfilled v, w).
Proof.
  intros Hc Hv Hp. unfold getOrSet.
  rewrite (get_healthy _ _ _ Hc), Hv. simpl. rewrite Hp. by destruct w.
Qed.

Lemma getOrSet_miss key factory ttl now w v :
  healthy (cache w) → misses key now w → factory (calls w) = Yields v →
  isCacheable (cache w) v = true →
  getOrSet key factory ttl now w
  = (Fulfilled v,
     mkWorld (with_entries (cache w)
                (<[key := (v, expiry ttl now (cache w))]> (entries (cache w))))
             (S (calls w))).
Proof.
  intros Hc Hmiss Hf Hv. unfold getOrSet, misses in *.
  rewrite (get_healthy _ _ _ Hc). simpl. rewrite Hmiss, Hf.
  by rewrite (set_healthy _ _ _ _ _ Hc Hv).
Qed.

(** A result the store refuses: [set] throws and the [catch] block runs
    the factory again; nothing is stored. *)
Lemma getOrSet_refused key factory ttl now w v :
  healthy (cache w) → misses key now w → factory (calls w) = Yields v →
  isCacheable (cache w) v = false →
  getOrSet key factory ttl now w
  = (settle (factory (S (calls w))), mkWorld (cache w) (S (S (calls w)))).
Proof.
  intros Hc Hmiss Hf Hv. unfold getOrSet, misses, bypass in *.
  rewrite (get_healthy _ _ _ Hc). simpl. rewrite Hmiss, Hf.
  by rewrite (set_refused _ _ _ _ _ Hv).
Qed.

Lemma getOrSet_never_cache_error key factory ttl now w :
  (getOrSet key factory ttl now w).1 ≠ Rejected CacheFailure.
Proof.
  unfold getOrSet, bypass.
  destruct (get key now (cache w)) as [[cached|] c1]; simpl.
  - destruct (is_present _); simpl; [done|].
    destruct (factory (calls w)) as [v|m] eqn:Hf; simpl.
    + destruct (set key v ttl now c1) as [[[]|] c2]; simpl; [done|].
      by destruct (factory (S (calls w))).
    + by destruct (factory (S (calls w))).
  - by destruct (factory (calls w)).
Qed.

(** C6, as the code has it.  [getOrSet] on a healthy store returns a
    cached value that is neither [undefined] nor [null], falsy ones
    included, without invoking the factory.  On a miss it invokes the
    factory once and, when the result is neither [undefined] nor [null],
    stores it under the given [ttl] and returns it: a second call is a hit
    that leaves the factory alone for as long as the entry lives, which is
    for ever when [ttl] is 0 and up to [ttl] units after the first call
    otherwise, and the entry is gone after that.  When the store throws, on
    the read or on the write, the result is that of a direct invocation of
    the factory and never the store's error. *)
Theorem getOrSet_read_through key factory ttl now w :
  healthy (cache w) →
  (* hit *)
  (∀ v, peek key now (cache w) = Some v → v ≠ JUndefined → v ≠ JNull →
     getOrSet key factory ttl now w = (Fulfilled v, w))
  ∧ (∀ v, v ∈ [JArr []; JNum 0; JStr ""; JBool false] →
       peek key now (cache w) = Some v →
       getOrSet key factory ttl now w = (Fulfilled v, w))
  (* miss *)
  ∧ (∀ v, (∀ v0, peek key now (cache w) = Some v0 → v0 = JUndefined ∨ v0 = JNull) →
       factory (calls w) = Yields v → v ≠ JUndefined → v ≠ JNull →
       let (r, w1) := getOrSet key factory ttl now w in
       r = Fulfilled v ∧ calls w1 = S (calls w)
       ∧ (* a second call while the entry lives *)
         (∀ later, now ≤ later →
            ttl = 0 ∨ later ≤ now + ttl * ttl_unit (cache w) →
            getOrSet key factory ttl later w1 = (Fulfilled v, w1))
       ∧ (* and after that *)
         (∀ later, ttl ≠ 0 → now + ttl * ttl_unit (cache w) < later →
            peek key later (cache w1) = None))
  (* the store throws *)
  ∧ (∀ fs c0 n, let w0 := mkWorld (mkCache (entries c0) (true :: fs) (ttl_unit c0)
                                      (shares_objects c0)) n in
       (getOrSet key factory ttl now w0).1
       = match factory n with
         | Yields v => Fulfilled v
         | Fails m => Rejected (FactoryFailure m)
         end
       ∧ calls (getOrSet key factory ttl now w0).2 = S n)
  ∧ (∀ fs c0 n v, let w0 := mkWorld (mkCache (entries c0) (false :: true :: fs)
                                        (ttl_unit c0) (shares_objects c0)) n in
       (∀ v0, peek key now (cache w0) = Some v0 → v0 = JUndefined ∨ v0 = JNull) →
       factory n = Yields v →
       (getOrSet key factory ttl now w0).1
       = match factory (S n) with
         | Yields v' => Fulfilled v'
         | Fails m => Rejected (FactoryFailure m)
         end
       ∧ calls (getOrSet key factory ttl now w0).2 = S (S n))
  ∧ (∀ w', (getOrSet key factory ttl now w').1 ≠ Rejected CacheFailure).
Proof.
  intros Hc.
  split; [intros v Hv Hu Hn; by apply getOrSet_hit, is_present_spec|].
  split.
  { intros v Hv Hpeek. apply getOrSet_hit; [done|done|].
    rewrite !elem_of_cons, elem_of_nil in Hv.
    by destruct Hv as [->|[->|[->|[->|[]]]]]. }
  split; [|split; [|split]].
  - intros v Hmiss Hf Hu Hn.
    assert (Hp : is_present v = true) by by apply is_present_spec.
    rewrite (getOrSet_miss _ _ _ _ _ v Hc) by
      (done || by apply misses_spec || by apply isCacheable_present).
    split; [done|]. split; [done|]. split.
    + intros later _ Hlive. apply getOrSet_hit; [done| |done].
      simpl. rewrite peek_insert, decide_True by done.
      by rewrite (proj2 (live_expiry ttl now later (cache w)) Hlive).
    + intros later Hne Hlater. simpl. rewrite peek_insert, decide_True by done.
      destruct (live later (expiry ttl now (cache w))) eqn:Hlive; [|done].
      apply live_expiry in Hlive as [?|?]; [done|lia].
  - intros fs c0 n w0. subst w0. unfold getOrSet, get. simpl. done.
  - intros fs c0 n v w0 Hmiss Hf. subst w0.
    apply misses_spec in Hmiss. unfold misses, peek in Hmiss. simpl in Hmiss.
    unfold getOrSet, get, peek, set, isCacheable. simpl. rewrite Hmiss, Hf.
    by destruct (negb _ && _).
  - apply getOrSet_never_cache_error.
Qed.

(** C10.  When the store is healthy and the factory throws on a miss,
    the [catch] block runs the factory again: it is invoked twice in the
    one call, the store is left as it was, and the caller gets the outcome
    of the second invocation, its value when it yields one and its
    exception when it throws once more. *)
Theorem getOrSet_failing_factory_runs_twice key factory ttl now w m :
  healthy (cache w) →
  (∀ v0, peek key now (cache w) = Some v0 → v0 = JUndefined ∨ v0 = JNull) →
  factory (calls w) = Fails m →
  calls (getOrSet key factory ttl now w).2 = S (S (calls w))
  ∧ cache (getOrSet key factory ttl now w).2 = cache w
  ∧ (∀ v, factory (S (calls w)) = Yields v →
       (getOrSet key factory ttl now w).1 = Fulfilled v)
  ∧ (∀ m', factory (S (calls w)) = Fails m' →
       (getOrSet key factory ttl now w).1 = Rejected (FactoryFailure m')).
Proof.
  intros Hc Hmiss%misses_spec Hf. unfold getOrSet, misses, bypass in *.
  rewrite (get_healthy _ _ _ Hc). simpl. rewrite Hmiss, Hf. simpl.
  split; [done|]. split; [done|]. split; [by intros v ->|by intros m' ->].
Qed.

End GetOrSetFacts.

Section GetOrSetWitness.
Import CacheManager CacheService.

Lemma getOrSet_read_through_witness :
  getOrSet "unread:u1" failing_factory 300 5 zero_cached_world
  = (Fulfilled (JNum 0), zero_cached_world)
  ∧ ∀ later, 0 ≤ later → later ≤ 300 →
      let w1 := (getOrSet "conversations:u1" empty_list_factory 300 0 memory_world).2 in
      getOrSet "conversations:u1" empty_list_factory 300 later w1
      = (Fulfilled (JArr []), w1)
      ∧ calls w1 = 1%nat.
Proof.
  split.
  { destruct (getOrSet_read_through "unread:u1" failing_factory 300 5
                zero_cached_world eq_refl) as (_ & Hfalsy & _).
    apply Hfalsy; [|reflexivity].
    apply elem_of_cons; right; apply elem_of_cons; by left. }
  destruct (getOrSet_read_through "conversations:u1" empty_list_factory 300 0
              memory_world eq_refl) as (_ & _ & Hmiss & _).
  specialize (Hmiss (JArr []) ltac:(by intros v0) eq_refl
                ltac:(discriminate) ltac:(discriminate)).
  intros later Hpos Hlater w1. subst w1.
  destruct (getOrSet "conversations:u1" empty_list_factory 300 0 memory_world)
    as [r w1].
  destruct Hmiss as (_ & Hcalls & Hagain & _).
  split; [|exact Hcalls].
  apply Hagain; [exact Hpos|right; simpl; lia].
Defined.

(** C6 as stated fails for a factory that yields [null] or [undefined].
    The in-memory store keeps the [null], but [getOrSet] takes a cached
    [null] for a miss: two calls 100 ms apart, long before the entry
    expires, invoke the factory twice.  The Redis store refuses [null], and
    both stores refuse [undefined]: [set] throws, the [catch] block runs the
    factory again within the one call, and nothing is stored. *)
Lemma getOrSet_recomputes_null :
  let first := getOrSet "conversation:c9" null_factory 300 0 memory_world in
  let second := getOrSet "conversation:c9" null_factory 300 100 first.2 in
  (first.1 = Fulfilled JNull
   ∧ peek "conversation:c9" 100 (cache first.2) = Some JNull
   ∧ second.1 = Fulfilled JNull
   ∧ calls second.2 = 2%nat)
  ∧ (let once := getOrSet "conversation:c9" null_factory 300 0 redis_world in
     calls once.2 = 2%nat ∧ entries (cache once.2) = ∅)
  ∧ (let once := getOrSet "conversation:c9" undefined_factory 300 0 memory_world in
     calls once.2 = 2%nat ∧ entries (cache once.2) = ∅).
Proof. vm_compute. repeat split. Qed.

Lemma getOrSet_failing_factory_runs_twice_witness :
  (getOrSet "conversation:c1" failing_factory 300 0 memory_world).1
  = Rejected (FactoryFailure "connection refused")
  ∧ (getOrSet "conversation:c1" flaky_factory 300 0 memory_world).1
    = Fulfilled (JNum 7)
  ∧ calls (getOrSet "conversation:c1" flaky_factory 300 0 memory_world).2 = 2%nat.
Proof.
  destruct (getOrSet_failing_factory_runs_twice "conversation:c1" failing_factory
              300 0 memory_world "connection reset" eq_refl
              ltac:(by intros v0) eq_refl) as (_ & _ & _ & Hthrows).
  destruct (getOrSet_failing_factory_runs_twice "conversation:c1" flaky_factory
              300 0 memory_world "connection reset" eq_refl
              ltac:(by intros v0) eq_refl) as (Hcalls & _ & Hyields & _).
  split; [exact (Hthrows _ eq_refl)|].
  split; [exact (Hyields _ eq_refl)|exact Hcalls].
Defined.

End GetOrSetWitness.

(** ** Cache coordinator: invalidation *)

Section InvalidationFacts.
Import CacheManager CacheService.
Context {V : Type}.
Implicit Types (c : Cache V) (k pattern id : string) (now : Z).

Lemma prefix_spec pattern : ∀ key,
  String.prefix pattern key = true ↔ ∃ post, key = pattern +:+ post.
Proof.
  induction pattern as [|a pattern IH]; intros key.
  - split; [intros _; by exists key|intros _; by destruct key].
  - destruct key as [|b key]; simpl.
    + split; [done|]. by intros [post [=]].
    + destruct (ascii_dec a b) as [->|Hne].
      * rewrite IH. split; intros [post Hpost]; exists post; [by rewrite Hpost|].
        by injection Hpost.
      * split; [done|]. intros [post [= ? ?]]. by destruct Hne.
Qed.

(** [includes] finds the pattern exactly in the keys that have it as a
    substring. *)
Lemma includes_spec pattern : ∀ key,
  includes key pattern = true ↔ ∃ pre post, key = pre +:+ pattern +:+ post.
Proof.
  induction key as [|a key IH].
  - cbn [includes]. rewrite orb_false_r, prefix_spec. split.
    + intros [post Hpost]. by exists "", post.
    + intros ([|b pre] & post & Hkey); [by exists post|done].
  - cbn [includes]. rewrite orb_true_iff, prefix_spec, IH. split.
    + intros [[post Hpost]|(pre & post & Hkey)].
      * by exists "", post.
      * exists (String a pre), post. simpl. by rewrite Hkey.
    + intros ([|b pre] & post & Hkey).
      * left. by exists post.
      * right. injection Hkey as -> ->. by exists pre, post.
Qed.

Lemma with_entries_same c : with_entries c (entries c) = c.
Proof. by destruct c. Qed.

Lemma elem_of_live_keys k now c :
  k ∈ live_keys now c
  ↔ ∃ v expires, entries c !! k = Some (v, expires) ∧ live now expires = true.
Proof.
  unfold live_keys. rewrite list_elem_of_fmap. split.
  - intros ([k' [v e]] & -> & Hin). apply elem_of_map_to_list in Hin.
    apply map_lookup_filter_Some in Hin as [Hk Hlive]. simpl in *. eauto.
  - intros (v & e & Hk & Hlive). exists (k, (v, e)). split; [done|].
    apply elem_of_map_to_list, map_lookup_filter_Some. done.
Qed.

Lemma del_each_healthy ks : ∀ c,
  healthy c → del_each ks c = (Ok tt, with_entries c (foldr delete (entries c) ks)).
Proof.
  induction ks as [|k ks IH]; intros c Hc; simpl.
  - by rewrite with_entries_same.
  - rewrite (del_healthy _ _ Hc), IH by done. simpl.
    by rewrite delete_foldr_delete.
Qed.

Lemma invalidatePattern_healthy pattern now c :
  healthy c →
  invalidatePattern pattern now c
  = with_entries c
      (foldr delete (entries c)
         (List.filter (λ key, includes key pattern) (live_keys now c))).
Proof.
  intros Hc. unfold invalidatePattern.
  by rewrite (keys_healthy _ _ Hc), del_each_healthy.
Qed.

Lemma elem_of_matching k pattern (ks : list string) :
  k ∈ List.filter (λ key, includes key pattern) ks ↔ k ∈ ks ∧ includes k pattern = true.
Proof. rewrite !list_elem_of_In, filter_In. reflexivity. Qed.

(** The entry of a key after [invalidatePattern]. *)
Lemma invalidatePattern_lookup pattern now c k :
  healthy c →
  entries (invalidatePattern pattern now c) !! k
  = match entries c !! k with
    | Some (v, expires) =>
        if includes k pattern && live now expires then None
        else Some (v, expires)
    | None => None
    end.
Proof.
  intros Hc. rewrite invalidatePattern_healthy by done. simpl.
  destruct (decide (k ∈ List.filter (λ key, includes key pattern) (live_keys now c)))
    as [Hin|Hout].
  - rewrite lookup_foldr_delete by done.
    apply elem_of_matching in Hin as [Hlive Hinc].
    apply elem_of_live_keys in Hlive as (v & e & -> & Hlt).
    by rewrite Hinc, Hlt.
  - rewrite lookup_foldr_delete_not_elem_of by done.
    destruct (entries c !! k) as [[v e]|] eqn:Hk; [|done].
    destruct (includes k pattern) eqn:Hinc; [|done].
    destruct (live now e) eqn:Hlive; [|done].
    exfalso. apply Hout, elem_of_matching. split; [|done].
    apply elem_of_live_keys. eauto.
Qed.

Lemma invalidatePattern_keeps_health pattern now c :
  healthy c → healthy (invalidatePattern pattern now c).
Proof. intros Hc. by rewrite invalidatePattern_healthy. Qed.

(** Nothing to delete: the store is left as it is. *)
Lemma invalidatePattern_nothing pattern now c :
  healthy c →
  (∀ k, includes k pattern = true → peek k now c = None) →
  invalidatePattern pattern now c = c.
Proof.
  intros Hc Hnone. rewrite invalidatePattern_healthy by done.
  rewrite foldr_delete_id; [apply with_entries_same|].
  apply Forall_forall. intros k Hin. exfalso.
  apply elem_of_matching in Hin as [Hlive Hinc].
  apply elem_of_live_keys in Hlive as (v & e & Hk & Hlt).
  specialize (Hnone k Hinc). unfold peek in Hnone. rewrite Hk, Hlt in Hnone.
  done.
Qed.

Lemma invalidateConversation_healthy id now c :
  healthy c →
  invalidateConversation id now c
  = (Ok tt,
     invalidatePattern (files_pattern id) now
       (invalidatePattern (messages_pattern id) now
          (with_entries c (delete (conversation_key id) (entries c))))).
Proof.
  intros Hc. unfold invalidateConversation. by rewrite (del_healthy _ _ Hc).
Qed.

(** What an observer reads after [invalidateConversation], at the instant
    of the call or later. *)
Lemma invalidateConversation_peek id now c k later :
  healthy c → now ≤ later →
  peek k later (invalidateConversation id now c).2
  = if targeted id k then None else peek k later c.
Proof.
  intros Hc Hlater. rewrite invalidateConversation_healthy by done. simpl.
  unfold peek, targeted.
  rewrite invalidatePattern_lookup
    by (apply invalidatePattern_keeps_health, healthy_with_entries, Hc).
  rewrite invalidatePattern_lookup by (apply healthy_with_entries, Hc).
  simpl. rewrite lookup_delete.
  destruct (decide (conversation_key id = k)) as [->|Hne].
  { by rewrite bool_decide_eq_true_2. }
  rewrite bool_decide_eq_false_2 by done. simpl.
  destruct (entries c !! k) as [[v e]|]; [|by destruct (_ || _)].
  destruct (live now e) eqn:Hlive.
  - rewrite !andb_true_r.
    destruct (includes k (messages_pattern id)); simpl; [done|].
    rewrite Hlive, andb_true_r. by destruct (includes k (files_pattern id)).
  - rewrite !andb_false_r. simpl. rewrite Hlive, andb_false_r.
    rewrite (live_stays_stale now later e) by done.
    by destruct (_ || _).
Qed.

(** The keys named by [targeted] are [conversation:<id>] and the keys
    with [messages:<id>] or [files:<id>] inside. *)
Lemma targeted_spec id k :
  targeted id k = true
  ↔ k = "conversation:" +:+ id
    ∨ (∃ pre post, k = pre +:+ "messages:" +:+ id +:+ post)
    ∨ (∃ pre post, k = pre +:+ "files:" +:+ id +:+ post).
Proof.
  unfold targeted. rewrite !orb_true_iff, bool_decide_eq_true, !includes_spec.
  unfold conversation_key, messages_pattern, files_pattern. simpl.
  split; intros [[?|?]|?] || intros [?|[?|?]]; eauto.
Qed.

(** C8.  On a healthy store [invalidateConversation id] fulfils, and
    afterwards an observer finds no entry under [conversation:<id>] nor
    under any key that has [messages:<id>] or [files:<id>] inside, and
    finds every other key as before; calling it again, then or later,
    changes nothing more; and when no such entry is stored the call leaves
    the store as it is. *)
Theorem invalidateConversation_spec id now c :
  healthy c →
  let c' := (invalidateConversation id now c).2 in
  (invalidateConversation id now c).1 = Ok tt
  ∧ (∀ later, now ≤ later → peek ("conversation:" +:+ id) later c' = None)
  ∧ (∀ pre post later, now ≤ later →
       peek (pre +:+ "messages:" +:+ id +:+ post) later c' = None
       ∧ peek (pre +:+ "files:" +:+ id +:+ post) later c' = None)
  ∧ (∀ k later, now ≤ later →
       k ≠ "conversation:" +:+ id →
       (∀ pre post, k ≠ pre +:+ "messages:" +:+ id +:+ post) →
       (∀ pre post, k ≠ pre +:+ "files:" +:+ id +:+ post) →
       peek k later c' = peek k later c)
  ∧ (∀ later, now ≤ later → invalidateConversation id later c' = (Ok tt, c'))
  ∧ (entries c !! ("conversation:" +:+ id) = None →
     (∀ pre post,
        entries c !! (pre +:+ "messages:" +:+ id +:+ post) = None
        ∧ entries c !! (pre +:+ "files:" +:+ id +:+ post) = None) →
     c' = c).
Proof.
  intros Hc c'. subst c'.
  assert (Hc' : healthy (invalidateConversation id now c).2).
  { rewrite invalidateConversation_healthy by done. simpl.
    by do 2 apply invalidatePattern_keeps_health. }
  assert (Hnoop : ∀ c0 at_, healthy c0 →
            (∀ k, targeted id k = true → peek k at_ c0 = None) →
            entries c0 !! conversation_key id = None →
            invalidateConversation id at_ c0 = (Ok tt, c0)).
  { intros c0 at_ Hc0 Hnone Hconv.
    rewrite invalidateConversation_healthy by done.
    rewrite delete_id, with_entries_same by done.
    rewrite (invalidatePattern_nothing (messages_pattern id)); [|done|].
    - rewrite (invalidatePattern_nothing (files_pattern id)); [done|done|].
      intros k Hk. apply Hnone. unfold targeted. rewrite Hk. by rewrite orb_true_r.
    - intros k Hk. apply Hnone. unfold targeted. rewrite Hk.
      by rewrite orb_true_r. }
  assert (Hgone : ∀ k later, now ≤ later → targeted id k = true →
            peek k later (invalidateConversation id now c).2 = None).
  { intros k later Hlater Hk. by rewrite invalidateConversation_peek, Hk. }
  split; [by rewrite invalidateConversation_healthy|].
  split; [intros later Hlater; apply Hgone, targeted_spec; eauto|].
  split.
  { intros pre post later Hlater.
    split; apply Hgone, targeted_spec; eauto 6. }
  split.
  { intros k later Hlater Hconv Hmsg Hfiles.
    rewrite invalidateConversation_peek by done.
    destruct (targeted id k) eqn:Hk; [|done].
    apply targeted_spec in Hk as [->|[(pre & post & ->)|(pre & post & ->)]].
    - done.
    - by destruct (Hmsg pre post).
    - by destruct (Hfiles pre post). }
  split.
  - intros later Hlater. apply Hnoop; [done| |].
    + intros k Hk. by apply Hgone.
    + rewrite invalidateConversation_healthy by done. simpl.
      rewrite !invalidatePattern_lookup
        by (try apply invalidatePattern_keeps_health; apply healthy_with_entries, Hc).
      simpl. by rewrite lookup_delete_eq.
  - intros Hconv Hnone. rewrite (Hnoop c now); [done|done| |done].
    intros k Hk. unfold peek.
    apply targeted_spec in Hk as [->|[(pre & post & ->)|(pre & post & ->)]].
    + by rewrite Hconv.
    + by rewrite (proj1 (Hnone pre post)).
    + by rewrite (proj2 (Hnone pre post)).
Qed.

End InvalidationFacts.

Section InvalidationWitness.
Import CacheManager CacheService.

Lemma invalidateConversation_spec_witness :
  let c' := (invalidateConversation "c1" 0 sample_cache).2 in
  peek "conversation:c1" 0 sample_cache = Some (JStr "detail")
  ∧ peek "conversation:c1" 5 c' = None
  ∧ peek "user:u1:messages:c1:page:2" 5 c' = None
  ∧ peek "files:c1" 5 c' = None
  ∧ peek "messages:c2" 5 c' = Some (JArr [JStr "other"])
  ∧ peek "conversations:u1" 5 c' = Some (JArr [JStr "c1"; JStr "c2"]).
Proof.
  destruct (invalidateConversation_spec "c1" 0 sample_cache eq_refl)
    as (_ & Hconv & Hlists & Hrest & _).
  assert (Hout : ∀ k pattern, includes k pattern = false →
            ∀ pre post, k ≠ pre +:+ pattern +:+ post).
  { intros k pattern Hno pre post ->.
    by rewrite (proj2 (includes_spec pattern _)) in Hno by eauto. }
  split; [reflexivity|].
  split; [apply Hconv; lia|].
  split; [apply (Hlists "user:u1:" ":page:2" 5); lia|].
  split; [apply (Hlists "" "" 5); lia|].
  split.
  - rewrite Hrest;
      [reflexivity|lia|discriminate
      |apply (Hout _ "messages:c1"); reflexivity
      |apply (Hout _ "files:c1"); reflexivity].
  - rewrite Hrest;
      [reflexivity|lia|discriminate
      |apply (Hout _ "messages:c1"); reflexivity
      |apply (Hout _ "files:c1"); reflexivity].
Defined.

End InvalidationWitness.

(** ** Stream registry *)

Section StreamRegistryFacts.
Import CacheManager StreamService.
Implicit Types (c : Cache Stored) (s : StreamInfo).

Lemma stream_key_not_user_key a b : user_streams_key b ≠ stream_key a.
Proof. unfold stream_key, user_streams_key. simpl. discriminate. Qed.

Lemma ceil_seconds_pos x : 0 < ceil_seconds x ↔ 0 < x.
Proof.
  unfold ceil_seconds. split; intros H.
  - destruct (Z.lt_ge_cases 0 x) as [|Hle]; [done|].
    assert (0 ≤ (- x) / 1000) by (apply Z.div_pos; lia). lia.
  - assert ((- x) / 1000 < 0) by (apply Z.div_lt_upper_bound; lia). lia.
Qed.

Lemma observed_Some sid now c s :
  observed sid now c = Some s ↔ peek (stream_key sid) now c = Some (Session s).
Proof.
  unfold observed. destruct (peek _ _ _) as [[s'|ids]|]; split; intros [=]; by subst.
Qed.

(** [registerStream] on a healthy store: the session it creates. *)
Lemma registerStream_creates uuid user conv now c :
  healthy c →
  (∀ i, peek (user_streams_key user) now c ≠ Some (Session i)) →
  (registerStream uuid user conv now c).1 = Ok uuid
  ∧ healthy (registerStream uuid user conv now c).2
  ∧ entries (registerStream uuid user conv now c).2 !! stream_key uuid
    = Some (Session (mkStreamInfo uuid user conv now now (now + STREAM_TIMEOUT * 1000)),
            expiry STREAM_TIMEOUT now c).
Proof.
  intros Hc Hlist. unfold registerStream.
  rewrite (set_plain _ _ _ _ _ Hc).
  rewrite get_healthy by (by apply healthy_with_entries).
  rewrite peek_insert, decide_False by (apply not_eq_sym, stream_key_not_user_key).
  destruct (peek (user_streams_key user) now c) as [[i|ids]|] eqn:Hpeek.
  - by destruct (Hlist i).
  - unfold mutate. simpl. destruct (shares_objects c).
    + rewrite (set_plain (V:=Stored)) by (by repeat apply healthy_with_entries). simpl.
      split; [done|]. split; [done|].
      rewrite lookup_insert_ne by apply stream_key_not_user_key.
      rewrite lookup_alter_ne by apply stream_key_not_user_key.
      by rewrite lookup_insert_eq.
    + rewrite (set_plain (V:=Stored)) by (by repeat apply healthy_with_entries). simpl.
      split; [done|]. split; [done|].
      rewrite lookup_insert_ne by apply stream_key_not_user_key.
      by rewrite lookup_insert_eq.
  - unfold mutate. simpl. destruct (shares_objects c).
    + rewrite (set_plain (V:=Stored)) by (by repeat apply healthy_with_entries). simpl.
      split; [done|]. split; [done|].
      rewrite lookup_insert_ne by apply stream_key_not_user_key.
      rewrite lookup_alter_ne by apply stream_key_not_user_key.
      by rewrite lookup_insert_eq.
    + rewrite (set_plain (V:=Stored)) by (by repeat apply healthy_with_entries). simpl.
      split; [done|]. split; [done|].
      rewrite lookup_insert_ne by apply stream_key_not_user_key.
      by rewrite lookup_insert_eq.
Qed.

(** [updateActivity] on the Redis store, for a stream that is stored:
    the call rejects and the store is as before. *)
Lemma updateActivity_redis sid now c s :
  healthy c → shares_objects c = false → observed sid now c = Some s →
  updateActivity sid now c = (Throw, c).
Proof.
  intros Hc Hredis Hobs%observed_Some. unfold updateActivity.
  rewrite (get_healthy _ _ _ Hc), Hobs. unfold mutate. by rewrite Hredis.
Qed.

(** [updateActivity] on the in-memory store, for a stream that is stored:
    the call fulfils; the session has its last activity moved to [now],
    and is stored anew, under the seconds left to its [expiresAt] as [ttl],
    when it has not reached it. *)
Lemma updateActivity_memory sid now c s :
  healthy c → shares_objects c = true → observed sid now c = Some s →
  updateActivity sid now c
  = (Ok tt,
     let touched := alter (λ e, (Session (touch now s), e.2)) (stream_key sid)
                      (entries c) in
     with_entries c
       (if 0 <? ceil_seconds (expiresAt s - now)
        then <[stream_key sid :=
                 (Session (touch now s),
                  expiry (ceil_seconds (expiresAt s - now)) now c)]> touched
        else touched)).
Proof.
  intros Hc Hmem Hobs%observed_Some. unfold updateActivity.
  rewrite (get_healthy _ _ _ Hc), Hobs. unfold mutate. rewrite Hmem. simpl.
  pose proof (peek_Some_entry _ _ _ _ Hobs) as (e & Hentry & _).
  assert (Halter : alter (λ e0 : Stored * option Z,
                     (match e0.1 with
                      | Session s0 => Session (touch now s0)
                      | StreamIds _ => e0.1
                      end, e0.2)) (stream_key sid) (entries c)
                   = alter (λ e0, (Session (touch now s), e0.2)) (stream_key sid)
                       (entries c)).
  { apply map_eq. intros k. rewrite !lookup_alter.
    destruct (decide (stream_key sid = k)) as [<-|]; [|done].
    by rewrite Hentry. }
  rewrite Halter. destruct (0 <? _); [|done].
  by rewrite (set_plain (V:=Stored)) by (by apply healthy_with_entries).
Qed.

(** [updateActivity] on a healthy store holding session [s]: every
    session observed afterwards is [s] itself or [s] with its last
    activity moved to [now], and it is the latter on the in-memory
    store. *)
Lemma updateActivity_touches sid now c s later s' :
  healthy c → observed sid now c = Some s →
  observed sid later (updateActivity sid now c).2 = Some s' →
  (s' = s ∨ s' = touch now s) ∧ (shares_objects c = true → s' = touch now s).
Proof.
  intros Hc Hobs Hobs'. apply observed_Some in Hobs'.
  destruct (shares_objects c) eqn:Hkind.
  - rewrite (updateActivity_memory _ _ _ _ Hc Hkind Hobs) in Hobs'.
    apply observed_Some in Hobs.
    pose proof (peek_Some_entry _ _ _ _ Hobs) as (e & Hentry & _).
    cbv zeta in Hobs'. simpl in Hobs'. unfold peek in Hobs'. simpl in Hobs'.
    assert (s' = touch now s) as ->; [|by split; [right|]].
    destruct (0 <? _).
    + rewrite lookup_insert_eq in Hobs'.
      destruct (live later _); [|done]. by injection Hobs'.
    + rewrite lookup_alter_eq, Hentry in Hobs'. simpl in Hobs'.
      destruct (live later e); [|done]. by injection Hobs'.
  - rewrite (updateActivity_redis _ _ _ _ Hc Hkind Hobs) in Hobs'.
    apply observed_Some in Hobs. simpl in Hobs'.
    pose proof (peek_Some_entry _ _ _ _ Hobs) as (e & Hentry & _).
    unfold peek in Hobs'. rewrite Hentry in Hobs'.
    destruct (live later e); [|done]. injection Hobs' as <-.
    split; [by left|done].
Qed.

End StreamRegistryFacts.

Section StreamRegistryClaims.
Import CacheManager StreamService.

(** C5, as the code has it.  [registerStream] creates a session whose
    [createdAt] and [lastActivityAt] are the current instant and whose
    [expiresAt] is that instant plus the 300 s timeout.  On the in-memory
    store [updateActivity] fulfils and moves [lastActivityAt] to the
    current instant, and it never changes [expiresAt] or [createdAt]: the
    expiry stays at creation plus timeout, and equals last activity plus
    timeout only when the tick falls on the instant of the previous
    activity. *)
Theorem stream_expiry_fixed_at_creation uuid user conv created (c : Cache Stored) :
  healthy c → 0 < ttl_unit c →
  (∀ i, peek (user_streams_key user) created c ≠ Some (Session i)) →
  (∃ s, observed uuid created (registerStream uuid user conv created c).2 = Some s
        ∧ createdAt s = created ∧ lastActivityAt s = created
        ∧ expiry_follows_activity s ∧ expiry_follows_creation s)
  ∧ ∀ (c2 : Cache Stored) s now,
      healthy c2 → shares_objects c2 = true → observed uuid now c2 = Some s →
      (updateActivity uuid now c2).1 = Ok tt
      ∧ ∀ later s', observed uuid later (updateActivity uuid now c2).2 = Some s' →
          expiresAt s' = expiresAt s ∧ createdAt s' = createdAt s
          ∧ (expiry_follows_creation s → expiry_follows_creation s')
          ∧ lastActivityAt s' = now
          ∧ (expiry_follows_activity s →
             (expiry_follows_activity s' ↔ now = lastActivityAt s)).
Proof.
  intros Hc Hunit Hlist. split.
  - destruct (registerStream_creates uuid user conv created c Hc Hlist)
      as (_ & _ & Hentry).
    eexists. split.
    + apply observed_Some. unfold peek. rewrite Hentry.
      rewrite live_expiry_now; [reflexivity|unfold STREAM_TIMEOUT; lia].
    + by repeat split.
  - intros c2 s now Hc2 Hmem Hobs. split.
    + by rewrite (updateActivity_memory _ _ _ _ Hc2 Hmem Hobs).
    + intros later s' Hobs'.
      destruct (updateActivity_touches uuid now c2 s later s' Hc2 Hobs Hobs')
        as [_ Htouched].
      rewrite (Htouched Hmem). simpl.
      split; [done|]. split; [done|].
      unfold expiry_follows_creation, expiry_follows_activity. simpl.
      split; [done|]. split; [done|]. intros Hact. lia.
Qed.

Lemma stream_expiry_fixed_at_creation_witness :
  let c1 := (registerStream "7c9e" "u1" "c1" 0 memory_registry).2 in
  (∃ s, observed "7c9e" 0 c1 = Some s ∧ expiry_follows_creation s)
  ∧ (updateActivity "7c9e" 100 c1).1 = Ok tt
  ∧ ∀ s', observed "7c9e" 100 (updateActivity "7c9e" 100 c1).2 = Some s' →
      expiresAt s' = 300000 ∧ createdAt s' = 0 ∧ lastActivityAt s' = 100.
Proof.
  destruct (stream_expiry_fixed_at_creation "7c9e" "u1" "c1" 0 memory_registry
              eq_refl ltac:(simpl; lia) ltac:(intros i; vm_compute; discriminate))
    as [(s & Hs & _ & _ & _ & Hcreation) Htick].
  destruct (Htick (registerStream "7c9e" "u1" "c1" 0 memory_registry).2
              (mkStreamInfo "7c9e" "u1" "c1" 0 0 300000) 100
              eq_refl eq_refl eq_refl) as [Hok Hafter].
  split; [exists s; split; [exact Hs|exact Hcreation]|].
  split; [exact Hok|].
  intros s' Hs'. destruct (Hafter 100 s' Hs') as (He & Hc & _ & Ha & _).
  split; [exact He|]. split; [exact Hc|exact Ha].
Defined.

(** C5 as stated fails: on the in-memory store, with its [ttl] in
    milliseconds, a keep-alive tick 100 ms after registration fulfils and
    leaves an observable session whose expiry is not its last activity
    plus the timeout. *)
Lemma updateActivity_breaks_activity_expiry :
  let c1 := (registerStream "7c9e" "u1" "c1" 0 memory_registry).2 in
  let c2 := (updateActivity "7c9e" 100 c1).2 in
  (updateActivity "7c9e" 100 c1).1 = Ok tt
  ∧ ∃ s, observed "7c9e" 100 c2 = Some s
         ∧ lastActivityAt s = 100 ∧ expiresAt s = 300000
         ∧ ¬ expiry_follows_activity s.
Proof.
  split; [vm_compute; reflexivity|].
  eexists. split; [vm_compute; reflexivity|].
  split; [reflexivity|]. split; [reflexivity|].
  unfold expiry_follows_activity, STREAM_TIMEOUT. simpl. lia.
Qed.

End StreamRegistryClaims.

(** ** Gateway relay: the title heuristic *)

Section TitleFacts.
Import AiGatewayService.
Implicit Types (s : jsstring) (c : N).

Lemma terminal_not_space c : is_terminal c = true → is_space c = false.
Proof.
  unfold is_terminal. rewrite !orb_true_iff, !N.eqb_eq.
  intros [[->| ->]| ->]; reflexivity.
Qed.

Lemma trim_start_head s c r : trim_start s = c :: r → is_space c = false.
Proof.
  induction s as [|a s IH]; simpl; [done|].
  destruct (is_space a) eqn:Ha; [done|]. intros [= -> _]. done.
Qed.

Lemma trim_start_keeps_last l : ∀ c, is_space c = false →
  ∃ pre, trim_start (l ++ [c]) = pre ++ [c].
Proof.
  induction l as [|a l IH]; intros c Hc; simpl.
  - rewrite Hc. by exists [].
  - destruct (is_space a); [by apply IH|]. by exists (a :: l).
Qed.

Lemma trim_head s : trim s = [] ∨ ∃ c r, trim s = c :: r ∧ is_space c = false.
Proof.
  unfold trim. destruct (trim_start s) as [|c r] eqn:Hs; [by left|right].
  pose proof (trim_start_head _ _ _ Hs) as Hc. simpl.
  destruct (trim_start_keeps_last (rev r) c Hc) as [pre ->].
  rewrite rev_app_distr. simpl. eauto.
Qed.

Lemma normalize_head message :
  normalize message = [] ∨ ∃ c r, normalize message = c :: r ∧ is_space c = false.
Proof.
  unfold normalize. destruct (trim_head message) as [->|(c & r & -> & Hc)].
  - by left.
  - right. simpl. rewrite Hc. eauto.
Qed.

(** Trimming a string that neither starts nor ends with white space. *)
Lemma trim_id c r last :
  is_space c = false → is_space last = false →
  ∀ s, s = c :: r → (∃ pre, s = pre ++ [last]) → trim s = s.
Proof.
  intros Hc Hlast s -> [pre Hpre]. unfold trim. simpl. rewrite Hc.
  rewrite Hpre, rev_app_distr. simpl. rewrite Hlast.
  change (last :: rev pre) with (rev [last] ++ rev pre).
  by rewrite <- rev_app_distr, rev_involutive.
Qed.

Lemma span_plain_first_terminal s :
  span_plain s
  = match first_terminal s with
    | Some i => (take i s, drop i s)
    | None => (s, [])
    end.
Proof.
  induction s as [|c s IH]; simpl; [done|].
  destruct (is_terminal c); [done|]. rewrite IH.
  by destruct (first_terminal s).
Qed.

Lemma first_terminal_Some s i :
  first_terminal s = Some i →
  ∃ mark, s !! i = Some mark ∧ is_terminal mark = true ∧ (i < length s)%nat.
Proof.
  revert i. induction s as [|c s IH]; intros i; simpl; [done|].
  destruct (is_terminal c) eqn:Hc.
  - intros [= <-]. exists c. simpl. split; [done|]. split; [done|lia].
  - destruct (first_terminal s) as [j|]; [|done]. intros [= <-].
    destruct (IH j eq_refl) as (m & Hm & Ht & Hlen). exists m. simpl.
    split; [done|]. split; [done|lia].
Qed.

Lemma sentenceEndMatch_spec s :
  sentenceEndMatch s
  = match first_terminal s with
    | Some (S i) => Some (take (S (S i)) s)
    | _ => None
    end.
Proof.
  unfold sentenceEndMatch. rewrite span_plain_first_terminal.
  destruct (first_terminal s) as [[|i]|] eqn:Hf.
  - by rewrite take_0.
  - destruct (first_terminal_Some _ _ Hf) as (m & Hm & _ & Hlen).
    destruct s as [|c s]; [simpl in Hlen; lia|].
    rewrite (drop_S _ m _ Hm), (take_S_r _ _ m Hm). reflexivity.
  - by destruct s.
Qed.

End TitleFacts.

Section TitleClaims.
Import AiGatewayService.
Implicit Types (s : jsstring) (c : N).

Lemma lastIndexOf_from_spec s : ∀ i found,
  ((∀ j, s !! j ≠ Some 32%N) ∧ lastIndexOf_from i found s = found)
  ∨ (∃ k, last_space_at s k ∧ lastIndexOf_from i found s = i + Z.of_nat k).
Proof.
  induction s as [|c s IH]; intros i found.
  - left. split; [|done]. intros j. by rewrite lookup_nil.
  - simpl. destruct (IH (i + 1) (if (c =? 32)%N then i else found))
      as [[Hnone ->]|(k & [Hk Hlast] & ->)].
    + destruct (N.eqb_spec c 32) as [->|Hne].
      * right. exists 0%nat. split; [|lia]. split; [done|].
        intros [|j] Hj; [lia|]. simpl. apply Hnone.
      * left. split; [|done]. intros [|j]; simpl; [congruence|apply Hnone].
    + right. exists (S k). split; [|lia]. split; [done|].
      intros [|j] Hj; [lia|]. simpl. apply Hlast. lia.
Qed.

Lemma lastIndexOf_space_found s k :
  last_space_at s k → lastIndexOf_space s = Z.of_nat k.
Proof.
  intros [Hk Hlast]. unfold lastIndexOf_space.
  destruct (lastIndexOf_from_spec s 0 (-1)) as [[Hnone _]|(k' & [Hk' Hlast'] & ->)].
  - by destruct (Hnone k).
  - destruct (lt_eq_lt_dec k k') as [[Hlt| ->]|Hgt]; [|lia|].
    + by destruct (Hlast k' Hlt).
    + by destruct (Hlast' k Hgt).
Qed.

Lemma lastIndexOf_space_bounded s bound :
  (∀ k, s !! k = Some 32%N → (k ≤ bound)%nat) → lastIndexOf_space s ≤ Z.of_nat bound.
Proof.
  intros Hbound. unfold lastIndexOf_space.
  destruct (lastIndexOf_from_spec s 0 (-1)) as [[_ ->]|(k & [Hk _] & ->)]; [lia|].
  specialize (Hbound k Hk). lia.
Qed.

Lemma truncate_title_long s :
  (50 < length s)%nat →
  (∀ k, last_space_at (take 50 s) k → (30 < k)%nat →
     truncate_title s = take k s ++ ellipsis)
  ∧ ((∀ k, take 50 s !! k = Some 32%N → (k ≤ 30)%nat) →
     truncate_title s = take 50 s ++ ellipsis)
  ∧ ∃ p, truncate_title s = p ++ ellipsis ∧ p `prefix_of` s ∧ (length p ≤ 50)%nat.
Proof.
  intros Hlen. unfold truncate_title.
  destruct (Z.leb_spec (Z.of_nat (length s)) 50) as [|_]; [lia|].
  split; [|split].
  - intros k Hk H30. pose proof Hk as [Hlook _].
    apply lookup_lt_Some in Hlook. rewrite length_take in Hlook.
    rewrite (lastIndexOf_space_found _ _ Hk).
    destruct (Z.ltb_spec 30 (Z.of_nat k)); [|lia].
    rewrite Nat2Z.id, take_take. do 2 f_equal. lia.
  - intros Hbound. pose proof (lastIndexOf_space_bounded _ _ Hbound).
    destruct (Z.ltb_spec 30 (lastIndexOf_space (take 50 s))); [lia|done].
  - destruct (30 <? _).
    + eexists. split; [done|]. rewrite take_take, length_take.
      split; [|lia]. eexists. symmetry. apply take_drop.
    + eexists. split; [done|]. rewrite length_take.
      split; [|lia]. eexists. symmetry. apply take_drop.
Qed.

(** The three ways of [generateTitleFromMessage], by the position of the
    first sentence-terminal mark of the normalised message. *)
Lemma generateTitleFromMessage_cases message :
  generateTitleFromMessage message
  = match first_terminal (normalize message) with
    | Some (S i) =>
        if (S i <? 60)%nat then take (S (S i)) (normalize message)
        else truncate_title (normalize message)
    | _ => truncate_title (normalize message)
    end.
Proof.
  unfold generateTitleFromMessage. rewrite sentenceEndMatch_spec.
  destruct (first_terminal (normalize message)) as [[|i]|] eqn:Hf; [done| |done].
  destruct (first_terminal_Some _ _ Hf) as (mark & Hmark & Hterm & Hlen).
  destruct (normalize_head message) as [Hnil|(c & r & Hclean & Hc)].
  { rewrite Hnil in Hlen. simpl in Hlen. lia. }
  rewrite (trim_id c (take (S i) r) mark Hc (terminal_not_space _ Hterm)).
  - rewrite length_take.
    destruct (Z.leb_spec (Z.of_nat (S (S i) `min` length (normalize message))) 60);
      destruct (Nat.ltb_spec (S i) 60); (done || lia).
  - by rewrite Hclean.
  - exists (take (S i) (normalize message)). by apply take_S_r.
Qed.

(** C9, as the code has it.  With [clean] the message after white-space
    normalisation: when the first sentence-terminal mark of [clean] lies
    within its first 60 characters and is not its first character, the
    title is [clean] up to and including that mark; otherwise a [clean] of
    at most 50 characters is the title; otherwise the title is the first 50
    characters cut at their last space when that space lies beyond index
    30, uncut when no space does, followed by [...], hence a prefix of at
    most 50 characters followed by [...].  [Hi there! How are you?] gives
    [Hi there!]. *)
Theorem generateTitleFromMessage_spec message :
  let clean := normalize message in
  let title := generateTitleFromMessage message in
  (∀ i, first_terminal clean = Some i → (0 < i < 60)%nat → title = take (S i) clean)
  ∧ ((∀ i, first_terminal clean = Some i → (i = 0 ∨ 60 ≤ i)%nat) →
     ((length clean ≤ 50)%nat → title = clean)
     ∧ ((50 < length clean)%nat →
        (∀ k, last_space_at (take 50 clean) k → (30 < k)%nat →
           title = take k clean ++ ellipsis)
        ∧ ((∀ k, take 50 clean !! k = Some 32%N → (k ≤ 30)%nat) →
           title = take 50 clean ++ ellipsis)
        ∧ ∃ p, title = p ++ ellipsis ∧ p `prefix_of` clean ∧ (length p ≤ 50)%nat))
  ∧ generateTitleFromMessage (of_string "Hi there! How are you?")
    = of_string "Hi there!".
Proof.
  intros clean title. subst title clean.
  rewrite generateTitleFromMessage_cases.
  split; [|split; [|vm_compute; reflexivity]].
  - intros [|i] Hf Hi; [lia|]. rewrite Hf.
    destruct (Nat.ltb_spec (S i) 60); [done|lia].
  - intros Hfar.
    assert (Hfall : match first_terminal (normalize message) with
                    | Some (S i) =>
                        if (S i <? 60)%nat then take (S (S i)) (normalize message)
                        else truncate_title (normalize message)
                    | _ => truncate_title (normalize message)
                    end = truncate_title (normalize message)).
    { destruct (first_terminal (normalize message)) as [[|i]|] eqn:Hf; [done| |done].
      destruct (Hfar _ eq_refl) as [|Hi]; [lia|].
      destruct (Nat.ltb_spec (S i) 60); [lia|done]. }
    rewrite Hfall. split.
    + intros Hshort. unfold truncate_title.
      destruct (Z.leb_spec (Z.of_nat (length (normalize message))) 50); [done|lia].
    + apply truncate_title_long.
Qed.

(** C9 as stated fails when the mark is the first character: the title
    of [.hello] is [.hello], not the text up to and including the mark. *)
Lemma title_after_leading_mark :
  first_terminal (normalize (of_string ".hello")) = Some 0%nat
  ∧ generateTitleFromMessage (of_string ".hello") = of_string ".hello"
  ∧ generateTitleFromMessage (of_string ".hello")
    ≠ take 1 (normalize (of_string ".hello")).
Proof. vm_compute. repeat split; discriminate. Qed.

Lemma generateTitleFromMessage_spec_witness :
  length (normalize long_question) = 80%nat
  ∧ first_terminal (normalize long_question) = None
  ∧ ∃ p, generateTitleFromMessage long_question = p ++ ellipsis
         ∧ p `prefix_of` normalize long_question ∧ (length p ≤ 50)%nat.
Proof.
  split; [reflexivity|]. split; [reflexivity|].
  destruct (generateTitleFromMessage_spec long_question) as (_ & Hrest & _).
  destruct Hrest as [_ Hlong].
  - intros i Hi. vm_compute in Hi. discriminate.
  - destruct Hlong as (_ & _ & Hp).
    + vm_compute. lia.
    + exact Hp.
Defined.

End TitleClaims.

(** ** Gateway relay: the retry wrapper *)

Section RetryFacts.
Import AiGatewayService.
Implicit Types (engine : Z → Upstream) (externalSignal : option AbortSignal).

(** One turn of [callAIEngineWithRetry]. *)
Lemma callAIEngineWithRetry_unfold engine attempt externalSignal now :
  callAIEngineWithRetry engine attempt externalSignal now
  = match axios_post now externalSignal (engine attempt) with
    | (t, Resolved response) => Some (mkRun [Attempt attempt now] t (Resolved response))
    | (t, Rejected error) =>
        if is_cancellation error
        then Some (mkRun [Attempt attempt now] t (Rejected error))
        else if is_client_error error
        then Some (mkRun [Attempt attempt now] t (Rejected error))
        else if attempt <? MAX_RETRIES
        then
          match callAIEngineWithRetry engine (attempt + 1) None (t + retry_delay attempt) with
          | Some r =>
              Some (mkRun (Attempt attempt now :: Delay t (retry_delay attempt) :: events r)
                      (settled_at r) (outcome r))
          | None => None
          end
        else Some (mkRun [Attempt attempt now] t (Rejected error))
    end.
Proof.
  unfold callAIEngineWithRetry at 1. simpl.
  destruct (axios_post now externalSignal (engine attempt)) as [t [response|error]];
    [done|].
  destruct (is_cancellation error); [done|].
  destruct (is_client_error error); [done|].
  destruct (Z.ltb_spec attempt MAX_RETRIES) as [Hlt|]; [|done].
  unfold callAIEngineWithRetry.
  replace (Z.to_nat (MAX_RETRIES - attempt))
    with (S (Z.to_nat (MAX_RETRIES - (attempt + 1)))) by lia.
  reflexivity.
Qed.

(** The wrapper always settles: the recursion bound is never reached. *)
Lemma retry_total fuel : ∀ engine attempt externalSignal now,
  (Z.to_nat (MAX_RETRIES - attempt) < fuel)%nat →
  is_Some (retry fuel engine attempt externalSignal now).
Proof.
  induction fuel as [|fuel IH]; intros engine attempt sig now Hfuel; [lia|].
  simpl. destruct (axios_post now sig (engine attempt)) as [t [response|error]];
    [done|].
  destruct (is_cancellation error); [done|].
  destruct (is_client_error error); [done|].
  destruct (Z.ltb_spec attempt MAX_RETRIES) as [Hlt|]; [|done].
  destruct (IH engine (attempt + 1) None (t + retry_delay attempt)) as [r ->]; [lia|].
  done.
Qed.

Lemma callAIEngineWithRetry_total engine attempt externalSignal now :
  is_Some (callAIEngineWithRetry engine attempt externalSignal now).
Proof. apply retry_total. lia. Qed.

(** Every run begins with the attempt it was entered for. *)
Lemma callAIEngineWithRetry_first_event engine attempt externalSignal now r :
  callAIEngineWithRetry engine attempt externalSignal now = Some r →
  ∃ rest, events r = Attempt attempt now :: rest.
Proof.
  rewrite callAIEngineWithRetry_unfold.
  destruct (axios_post _ _ _) as [t [response|error]].
  - intros [= <-]. by eexists.
  - destruct (is_cancellation error); [intros [= <-]; by eexists|].
    destruct (is_client_error error); [intros [= <-]; by eexists|].
    destruct (attempt <? MAX_RETRIES); [|intros [= <-]; by eexists].
    destruct (callAIEngineWithRetry _ _ _ _); [|done].
    intros [= <-]. by eexists.
Qed.

(** From attempt 1 on the power is a whole number. *)
Lemma retry_delay_from_1 attempt :
  1 ≤ attempt → retry_delay attempt = Z.min (1000 * 2 ^ (attempt - 1)) 10000.
Proof. intros H. unfold retry_delay. by destruct (Z.leb_spec 1 attempt); [|lia]. Qed.

Lemma other_failure_inv error :
  other_failure error → is_cancellation error = false ∧ is_client_error error = false.
Proof.
  intros (Hname & Hcode & Hstatus). unfold is_cancellation, is_client_error. split.
  - by rewrite !bool_decide_eq_false_2.
  - destruct (response_status error) as [status|]; [|done].
    destruct (Hstatus status eq_refl).
    + destruct (Z.leb_spec 400 status); [lia|done].
    + destruct (Z.ltb_spec status 500); [lia|]. by rewrite andb_false_r.
Qed.

End RetryFacts.

Section RetryClaims.
Import AiGatewayService.
Implicit Types (engine : Z → Upstream) (externalSignal : option AbortSignal).

(** C3.  When an attempt (numbered from 1) fails: an error carrying an
    HTTP status from 400 to 499 is rethrown at once, with no delay and no
    further attempt; any other error that is no cancellation is retried
    only while [attempt < 3], the next attempt starting exactly
    [min (1000 * 2^(attempt-1)) 10000] ms after the failure, and is
    rethrown otherwise; so three such failures in a row end the call with
    the error of the third attempt, after delays of 1000 and 2000 ms. *)
Theorem callAIEngineWithRetry_policy engine attempt externalSignal now t error :
  1 ≤ attempt →
  axios_post now externalSignal (engine attempt) = (t, Rejected error) →
  (∀ status, response_status error = Some status → 400 ≤ status ≤ 499 →
     callAIEngineWithRetry engine attempt externalSignal now
     = Some (mkRun [Attempt attempt now] t (Rejected error)))
  ∧ (other_failure error →
       let delay := Z.min (1000 * 2 ^ (attempt - 1)) 10000 in
       (attempt < 3 →
          ∃ r, callAIEngineWithRetry engine (attempt + 1) None (t + delay) = Some r
               ∧ callAIEngineWithRetry engine attempt externalSignal now
                 = Some (mkRun (Attempt attempt now :: Delay t delay :: events r)
                           (settled_at r) (outcome r)))
       ∧ (3 ≤ attempt →
            callAIEngineWithRetry engine attempt externalSignal now
            = Some (mkRun [Attempt attempt now] t (Rejected error))))
  ∧ (attempt = 1 → other_failure error →
     ∀ t2 e2 t3 e3,
       axios_post (t + 1000) None (engine 2) = (t2, Rejected e2) →
       other_failure e2 →
       axios_post (t2 + 2000) None (engine 3) = (t3, Rejected e3) →
       other_failure e3 →
       callAIEngineWithRetry engine 1 externalSignal now
       = Some (mkRun [Attempt 1 now; Delay t 1000; Attempt 2 (t + 1000);
                      Delay t2 2000; Attempt 3 (t2 + 2000)] t3 (Rejected e3))).
Proof.
  intros Hattempt Hpost. cbv zeta.
  split; [|split].
  - intros status Hstatus Hrange.
    rewrite callAIEngineWithRetry_unfold, Hpost.
    unfold is_client_error. rewrite Hstatus.
    destruct (Z.leb_spec 400 status); [|lia].
    destruct (Z.ltb_spec status 500); [|lia].
    by destruct (is_cancellation error).
  - intros [Hcancel Hclient]%other_failure_inv.
    rewrite (callAIEngineWithRetry_unfold engine attempt), Hpost, Hcancel, Hclient.
    rewrite <- (retry_delay_from_1 attempt Hattempt). split.
    + intros Hlt. destruct (Z.ltb_spec attempt MAX_RETRIES) as [|Hge];
        [|unfold MAX_RETRIES in Hge; lia].
      destruct (callAIEngineWithRetry_total engine (attempt + 1) None
                  (t + retry_delay attempt)) as [r Hr].
      exists r. by rewrite Hr.
    + intros Hge. destruct (Z.ltb_spec attempt MAX_RETRIES) as [Hlt|];
        [unfold MAX_RETRIES in Hlt; lia|done].
  - intros -> [Hc1 Hk1]%other_failure_inv t2 e2 t3 e3 Hpost2
      [Hc2 Hk2]%other_failure_inv Hpost3 [Hc3 Hk3]%other_failure_inv.
    rewrite (callAIEngineWithRetry_unfold engine 1), Hpost, Hc1, Hk1. simpl.
    change (retry_delay 1) with 1000.
    rewrite (callAIEngineWithRetry_unfold engine 2), Hpost2, Hc2, Hk2. simpl.
    change (retry_delay 2) with 2000.
    rewrite (callAIEngineWithRetry_unfold engine 3), Hpost3, Hc3, Hk3. simpl.
    reflexivity.
Qed.

Lemma callAIEngineWithRetry_policy_witness :
  callAIEngineWithRetry rejecting_engine 1 None 0
  = Some (mkRun [Attempt 1 0] 100 (Rejected NotFound))
  ∧ ∃ r, callAIEngineWithRetry recovering_engine 2 None 1100 = Some r
         ∧ callAIEngineWithRetry recovering_engine 1 None 0
           = Some (mkRun (Attempt 1 0 :: Delay 100 1000 :: events r)
                     (settled_at r) (outcome r)).
Proof.
  destruct (callAIEngineWithRetry_policy rejecting_engine 1 None 0 100
              NotFound ltac:(lia) eq_refl) as (Hclient & _).
  destruct (callAIEngineWithRetry_policy recovering_engine 1 None 0 100
              ServiceUnavailable ltac:(lia) eq_refl) as (_ & Hretry & _).
  split; [apply (Hclient 404); [reflexivity|lia]|].
  assert (Hother : other_failure ServiceUnavailable).
  { split; [discriminate|]. split; [discriminate|].
    intros status [= <-]. lia. }
  destruct (Hretry Hother) as [Hnext _].
  exact (Hnext ltac:(lia)).
Defined.

(** C1, on the code.  The wrapper looks at cancellation in one place, the
    error of an attempt that has failed: such an error ([CanceledError] or
    [ERR_CANCELED]) is rethrown at once, and the caller's signal firing
    while the first attempt is in flight makes that attempt fail so.  But
    it never reads the signal itself, and its recursive call leaves the
    signal out.  With an upstream that fails with a 503 after 100 ms and
    answers the next request: a caller that disconnects at 50 ms ends the
    call there; for one that disconnects at 500 ms, during the backoff,
    the second attempt is started all the same at 1100 ms and runs to its
    answer; and one that disconnects at 1150 ms, while the second attempt
    is in flight, does not abort it.  In general, after a failure that is
    neither a cancellation nor a client error, and while [attempt < 3], the
    next attempt is started after the delay whatever the signal. *)
Theorem retry_starts_after_cancellation :
  (∀ engine attempt externalSignal now t error,
     axios_post now externalSignal (engine attempt) = (t, Rejected error) →
     name error = "CanceledError" ∨ code error = Some "ERR_CANCELED" →
     callAIEngineWithRetry engine attempt externalSignal now
     = Some (mkRun [Attempt attempt now] t (Rejected error)))
  ∧ callAIEngineWithRetry recovering_engine 1 (Some (mkSignal (Some 50))) 0
    = Some (mkRun [Attempt 1 0] 50 (Rejected CanceledError))
  ∧ (let signal := mkSignal (Some 500) in
     ∃ r, callAIEngineWithRetry recovering_engine 1 (Some signal) 0 = Some r
          ∧ events r = [Attempt 1 0; Delay 100 1000; Attempt 2 1100]
          ∧ outcome r = Resolved hello_response
          ∧ ∃ started, started ∈ attempt_starts (events r)
                       ∧ fires_at signal = Some 500 ∧ 500 < started)
  ∧ callAIEngineWithRetry recovering_engine 1 (Some (mkSignal (Some 1150))) 0
    = Some (mkRun [Attempt 1 0; Delay 100 1000; Attempt 2 1100] 1200
              (Resolved hello_response))
  ∧ (∀ engine attempt externalSignal now t error,
       1 ≤ attempt → attempt < 3 →
       axios_post now externalSignal (engine attempt) = (t, Rejected error) →
       other_failure error →
       ∃ r, callAIEngineWithRetry engine attempt externalSignal now = Some r
            ∧ Attempt (attempt + 1) (t + Z.min (1000 * 2 ^ (attempt - 1)) 10000)
              ∈ events r).
Proof.
  split; [|split; [|split; [|split]]].
  - intros engine attempt externalSignal now t error Hpost Hcancel.
    rewrite callAIEngineWithRetry_unfold, Hpost.
    assert (is_cancellation error = true) as ->; [|done].
    unfold is_cancellation. apply orb_true_iff.
    destruct Hcancel; [left|right]; by apply bool_decide_eq_true.
  - vm_compute. reflexivity.
  - eexists. split; [vm_compute; reflexivity|]. simpl.
    split; [done|]. split; [done|].
    exists 1100. split; [|done]. set_solver.
  - vm_compute. reflexivity.
  - intros engine attempt externalSignal now t error Hfirst Hlt Hpost
      [Hcancel Hclient]%other_failure_inv.
    rewrite callAIEngineWithRetry_unfold, Hpost, Hcancel, Hclient.
    destruct (Z.ltb_spec attempt MAX_RETRIES) as [|Hge];
      [|unfold MAX_RETRIES in Hge; lia].
    rewrite <- (retry_delay_from_1 attempt Hfirst).
    destruct (callAIEngineWithRetry_total engine (attempt + 1) None
                (t + retry_delay attempt)) as [r Hr].
    rewrite Hr. eexists. split; [done|]. simpl.
    destruct (callAIEngineWithRetry_first_event _ _ _ _ _ Hr) as [rest ->].
    set_solver.
Qed.

(** C2, on the code: an upstream that takes 130 s is aborted by the
    120 s timer of the attempt, the abort surfaces as a [CanceledError],
    and the wrapper rethrows it after that single attempt although
    [attempt < MAX_RETRIES]; the relay then takes it for a disconnected
    client and completes without an error event.  Axios' own timeout error
    at the same attempt is retried. *)
Theorem hard_timeout_is_not_retried :
  callAIEngineWithRetry slow_engine 1 (Some (mkSignal None)) 0
  = Some (mkRun [Attempt 1 0] 120000 (Rejected CanceledError))
  ∧ (1 <? MAX_RETRIES) = true
  ∧ (∃ r, streamChat (chat_refusing None) slow_engine (mkSignal None)
            "u1" (of_string "Hello") (Some "c1") 0 empty_tracking = Some r
          ∧ emitted r = [Complete])
  ∧ callAIEngineWithRetry timing_out_engine 1 (Some (mkSignal None)) 0
    = Some (mkRun [Attempt 1 0; Delay 120000 1000; Attempt 2 121000] 121100
              (Resolved hello_response)).
Proof.
  split; [vm_compute; reflexivity|]. split; [reflexivity|].
  split; [|vm_compute; reflexivity].
  eexists. split; [vm_compute; reflexivity|]. reflexivity.
Qed.

End RetryClaims.

(** ** Gateway relay: persistence failures *)

Section RelayClaims.
Import CacheManager AiGatewayService.

(** The [end] listener when the assistant message cannot be saved:
    nothing is emitted and the listener's promise rejects. *)
Lemma on_end_save_failure chat conversation userId streamId fullResponse now c e :
  saveMessage chat conversation ASSISTANT fullResponse = Rejected e →
  on_end chat conversation userId streamId fullResponse now c = mkRelay [] c (Some e).
Proof. intros H. unfold on_end. by rewrite H. Qed.

(** The [catch] block of the body, for an error that is no cancellation,
    on a healthy store: one error event, then the observer's error. *)
Lemma recover_reports error streamId (c : Cache Tracking) :
  healthy c → is_cancellation error = false →
  emitted (recover error streamId c) = [Next (ErrorEvent (errorMessage error)); Error error]
  ∧ unhandled (recover error streamId c) = None.
Proof.
  intros Hc Hcancel. unfold recover.
  rewrite (del_healthy _ _ Hc), Hcancel. done.
Qed.

(** C7, on the code: the upstream answers and ends its stream, the
    database refuses the assistant message; the subscriber has received
    the forwarded content and then nothing, neither an error event nor a
    completion, and the rejection is left unhandled.  The same refusal for
    the user message, inside the body's [try], is reported as one error
    event. *)
Theorem assistant_save_failure_is_not_reported :
  (∃ r, streamChat (chat_refusing (Some ASSISTANT)) answering_engine (mkSignal None)
          "u1" (of_string "Hello") (Some "c1") 0 empty_tracking = Some r
        ∧ emitted r = [Next (Forwarded "{content:Hello}")]
        ∧ forallb (λ e, negb (is_terminal_emission e)) (emitted r) = true
        ∧ unhandled r = Some DatabaseError)
  ∧ (∃ r, streamChat (chat_refusing (Some USER)) answering_engine (mkSignal None)
            "u1" (of_string "Hello") (Some "c1") 0 empty_tracking = Some r
          ∧ emitted r = [Next (ErrorEvent "connection terminated unexpectedly");
                         Error DatabaseError]
          ∧ unhandled r = None).
Proof.
  split; eexists; (split; [vm_compute; reflexivity|]); simpl; done.
Qed.

End RelayClaims.

(** * Part III: further properties of the services *)

(** ** Rate limiter: failures, quota queries and reset *)

Section RateLimitMore.
Import CacheManager RateLimitService.
Implicit Types (c : Cache Z) (id : string) (limit W now : Z).

Lemma entries_next_fault {V} (c : Cache V) : entries (next_fault c).2 = entries c.
Proof. unfold next_fault. by destruct (faults c). Qed.

Lemma peek_next_fault {V} key now (c : Cache V) :
  peek key now (next_fault c).2 = peek key now c.
Proof. unfold peek. by rewrite entries_next_fault. Qed.

Lemma ratelimit_key_inj id id' : ratelimit_key id = ratelimit_key id' → id = id'.
Proof. unfold ratelimit_key. simpl. by intros [=]. Qed.

(** A rejection means a live count at or above the limit was read, and
    nothing was written. *)
Lemma checkLimit_false_inv id limit W now c :
  (checkLimit id limit W now c).1 = false →
  (∃ n, stored_count id now c = Some n ∧ limit ≤ n)
  ∧ entries (checkLimit id limit W now c).2 = entries c.
Proof.
  unfold checkLimit, get, set, stored_count.
  pose proof (peek_next_fault (ratelimit_key id) now c) as Hpeek.
  pose proof (entries_next_fault c) as Hentries.
  destruct (next_fault c) as [[] c1]; simpl in *; [done|].
  rewrite Hpeek. destruct (peek (ratelimit_key id) now c) as [n|].
  - destruct (Z.leb_spec limit n).
    + intros _. split; [by exists n|done].
    + by destruct (next_fault c1) as [[] c2].
  - by destruct (next_fault c1) as [[] c2].
Qed.

(** X1.  [checkLimit] answers [false] only when it has read a live count
    at or above the limit, and then it leaves the stored entries as they
    are; when the read throws it answers [true] without touching the
    entries; when the read finds room and the write throws it still answers
    [true], the request being admitted and not counted. *)
Theorem checkLimit_fails_open id limit W now c :
  ((checkLimit id limit W now c).1 = false →
     (∃ n, stored_count id now c = Some n ∧ limit ≤ n)
     ∧ entries (checkLimit id limit W now c).2 = entries c)
  ∧ (∀ fs, faults c = true :: fs →
       (checkLimit id limit W now c).1 = true
       ∧ entries (checkLimit id limit W now c).2 = entries c)
  ∧ (∀ fs, faults c = false :: true :: fs →
       (∀ n, stored_count id now c = Some n → n < limit) →
       (checkLimit id limit W now c).1 = true
       ∧ entries (checkLimit id limit W now c).2 = entries c).
Proof.
  split; [|split].
  - apply checkLimit_false_inv.
  - intros fs Hf. unfold checkLimit, get, next_fault. by rewrite Hf.
  - intros fs Hf Hroom. unfold checkLimit, get, set, next_fault, stored_count in *.
    rewrite Hf. simpl.
    change (peek (ratelimit_key id) now _) with (peek (ratelimit_key id) now c).
    destruct (peek (ratelimit_key id) now c) as [n|]; simpl; [|done].
    specialize (Hroom n eq_refl). by destruct (Z.leb_spec limit n); [lia|].
Qed.

Lemma checkLimit_fails_open_witness :
  (checkLimit "ip:10.0.0.1" 5 60 0 (mkCache ∅ [true] 1000 false)).1 = true
  ∧ (checkLimit "ip:10.0.0.1" 5 60 0 (mkCache ∅ [false; true] 1000 false)).1 = true
  ∧ entries (checkLimit "ip:10.0.0.1" 5 60 0
               (mkCache ∅ [false; true] 1000 false)).2 = ∅.
Proof.
  destruct (checkLimit_fails_open "ip:10.0.0.1" 5 60 0
              (mkCache ∅ [true] 1000 false)) as (_ & Hread & _).
  destruct (checkLimit_fails_open "ip:10.0.0.1" 5 60 0
              (mkCache ∅ [false; true] 1000 false)) as (_ & _ & Hwrite).
  split; [exact (proj1 (Hread [] eq_refl))|].
  apply (Hwrite [] eq_refl). intros n Hn. vm_compute in Hn. discriminate.
Defined.

(** X2.  On a healthy store the remaining quota is [max 0 (limit - count)]
    for the count [getCurrentCount] reports, and, for a limit of at least
    1, it is 0 exactly when [checkLimit] would reject the request. *)
Theorem remaining_zero_iff_rejected id limit W now c :
  healthy c → 1 ≤ limit →
  (∃ count, (getCurrentCount id now c).1 = Ok count
            ∧ (getRemainingRequests id limit now c).1 = Ok (Z.max 0 (limit - count)))
  ∧ ((getRemainingRequests id limit now c).1 = Ok 0
     ↔ (checkLimit id limit W now c).1 = false).
Proof.
  intros Hc Hlimit.
  unfold getCurrentCount, getRemainingRequests, checkLimit.
  rewrite !(get_healthy _ _ _ Hc). simpl. split; [by eexists|].
  destruct (peek (ratelimit_key id) now c) as [n|]; simpl.
  - destruct (Z.leb_spec limit n).
    + split; [done|]. intros _. f_equal. lia.
    + rewrite (set_plain _ _ _ _ _ Hc). simpl. split; [|done].
      intros [= H1]. lia.
  - rewrite (set_plain _ _ _ _ _ Hc). simpl. split; [|done].
    intros [= H1]. lia.
Qed.

Lemma remaining_zero_iff_rejected_witness :
  (getRemainingRequests "ip:10.0.0.1" 2 5
     (serve "ip:10.0.0.1" 2 60 [0; 1] empty_counter_store).2).1 = Ok 0
  ∧ (checkLimit "ip:10.0.0.1" 2 60 5
       (serve "ip:10.0.0.1" 2 60 [0; 1] empty_counter_store).2).1 = false.
Proof.
  destruct (remaining_zero_iff_rejected "ip:10.0.0.1" 2 60 5
              (serve "ip:10.0.0.1" 2 60 [0; 1] empty_counter_store).2
              eq_refl ltac:(lia)) as [_ Hiff].
  split; [reflexivity|]. apply Hiff. reflexivity.
Defined.

(** X3.  On a healthy store, after [resetLimit] the next request of that
    identity is admitted and its count restarts at 1, whatever it was; the
    counts of the other identities are as before. *)
Theorem resetLimit_reopens id limit W now c :
  healthy c →
  let c1 := (resetLimit id c).2 in
  (resetLimit id c).1 = Ok tt
  ∧ stored_count id now c1 = None
  ∧ (checkLimit id limit W now c1).1 = true
  ∧ raw_count id (checkLimit id limit W now c1).2 = Some 1
  ∧ ∀ id', id' ≠ id → stored_count id' now c1 = stored_count id' now c.
Proof.
  intros Hc c1. subst c1. unfold resetLimit. rewrite (del_healthy _ _ Hc). simpl.
  assert (Hnone : stored_count id now
                    (with_entries c (delete (ratelimit_key id) (entries c))) = None).
  { unfold stored_count. by rewrite peek_delete, decide_True. }
  split; [done|]. split; [done|].
  rewrite (checkLimit_fresh _ _ _ _ _ (healthy_with_entries _ _ Hc) Hnone). simpl.
  split; [done|]. split.
  - unfold raw_count. simpl. by rewrite lookup_insert_eq.
  - intros id' Hne. unfold stored_count. rewrite peek_delete.
    rewrite decide_False; [done|]. intros Heq. by apply ratelimit_key_inj in Heq.
Qed.

Lemma resetLimit_reopens_witness :
  (checkLimit "ip:10.0.0.1" 2 60 5
     (resetLimit "ip:10.0.0.1"
        (serve "ip:10.0.0.1" 2 60 [0; 1; 2] empty_counter_store).2).2).1 = true.
Proof.
  destruct (resetLimit_reopens "ip:10.0.0.1" 2 60 5
              (serve "ip:10.0.0.1" 2 60 [0; 1; 2] empty_counter_store).2 eq_refl)
    as (_ & _ & Hadmit & _).
  exact Hadmit.
Defined.

End RateLimitMore.

(** ** Rate-limit guard *)

Section RateLimitGuardFacts.
Import CacheManager RateLimitService RateLimitGuard.
Implicit Types (c : Cache Z) (limit now : Z) (window : option Z).

Lemma peek_same_entries {V} key now (c c' : Cache V) :
  entries c' = entries c → peek key now c' = peek key now c.
Proof. unfold peek. by intros ->. Qed.

(** X4.  On a healthy store, for a limit of at least 1 and a window the
    store does not expire at once: a request that finds a live count at or
    above the limit gets the 429 with [remaining] 0 and leaves the store as
    it was; any other request is admitted, counted, and its
    [X-RateLimit-Remaining] header is the limit less the new count. *)
Theorem canActivate_on_healthy_store limit window user ip now c :
  healthy c → 1 ≤ limit → 0 < window_or_default window * ttl_unit c →
  let id := identifier_of user ip in
  let w := window_or_default window in
  match stored_count id now c with
  | Some n =>
      if limit <=? n
      then canActivate (Some limit) window user ip now c
           = (TooManyRequests 0 limit w, c)
      else (canActivate (Some limit) window user ip now c).1
           = Activated (Some (mkHeaders limit (limit - (n + 1)) w))
           ∧ raw_count id (canActivate (Some limit) window user ip now c).2
             = Some (n + 1)
  | None =>
      (canActivate (Some limit) window user ip now c).1
      = Activated (Some (mkHeaders limit (limit - 1) w))
      ∧ raw_count id (canActivate (Some limit) window user ip now c).2 = Some 1
  end.
Proof.
  intros Hc Hlimit Hwindow id w.
  unfold canActivate. destruct limit as [|l|l]; [lia| |lia].
  fold id. fold w. fold w in Hwindow.
  destruct (stored_count id now c) as [n|] eqn:Hcount.
  - destruct (Z.leb_spec (Z.pos l) n) as [Hover|Hroom].
    + rewrite (checkLimit_reject _ _ _ _ _ _ Hc Hcount Hover). simpl.
      unfold getRemainingRequests, getCurrentCount.
      rewrite !(get_healthy _ _ _ Hc). unfold stored_count in Hcount.
      rewrite Hcount. simpl. do 2 f_equal. lia.
    + rewrite (checkLimit_admit _ _ _ _ _ _ Hc Hcount Hroom). simpl.
      unfold getRemainingRequests.
      rewrite get_healthy by (by apply healthy_with_entries).
      rewrite peek_insert, decide_True by done.
      rewrite live_expiry_now by lia. simpl.
      split; [do 3 f_equal; lia|apply raw_count_insert].
  - rewrite (checkLimit_fresh _ _ _ _ _ Hc Hcount). simpl.
    unfold getRemainingRequests.
    rewrite get_healthy by (by apply healthy_with_entries).
    rewrite peek_insert, decide_True by done.
    rewrite live_expiry_now by lia. simpl.
    split; [do 3 f_equal; lia|apply raw_count_insert].
Qed.

Lemma canActivate_on_healthy_store_witness :
  (canActivate (Some 2) None None "10.0.0.1" 0 empty_counter_store).1
  = Activated (Some (mkHeaders 2 1 60)).
Proof.
  pose proof (canActivate_on_healthy_store 2 None None "10.0.0.1" 0
                empty_counter_store eq_refl ltac:(lia) ltac:(simpl; lia)) as H.
  simpl in H. exact (proj1 H).
Defined.

Lemma canActivate_limited limit window user ip now c :
  limit ≠ 0 →
  canActivate (Some limit) window user ip now c
  = let identifier := identifier_of user ip in
    let window := window_or_default window in
    let (allowed, c1) := checkLimit identifier limit window now c in
    if negb allowed then
      match getRemainingRequests identifier limit now c1 with
      | (Throw, c2) => (Activated None, c2)
      | (Ok remaining, c2) =>
          match getCurrentCount identifier now c2 with
          | (Throw, c3) => (Activated None, c3)
          | (Ok _, c3) => (TooManyRequests (Z.max 0 remaining) limit window, c3)
          end
      end
    else
      match getRemainingRequests identifier limit now c1 with
      | (Throw, c2) => (Activated None, c2)
      | (Ok remaining, c2) =>
          (Activated (Some (mkHeaders limit remaining window)), c2)
      end.
Proof. by destruct limit. Qed.

(** X5.  Whatever the store does: without a configured limit the guard
    admits and does not touch the store; it answers 429 only to a request
    that found a live count at or above the limit, and the body then says
    [remaining] 0; and when the store throws on the read that follows a
    rejecting check, the request over the limit is admitted. *)
Theorem canActivate_fails_open limit window user ip now c :
  (canActivate None window user ip now c = (Activated None, c)
   ∧ canActivate (Some 0) window user ip now c = (Activated None, c))
  ∧ (∀ r l w,
       (canActivate (Some limit) window user ip now c).1 = TooManyRequests r l w →
       r = 0 ∧ l = limit ∧ w = window_or_default window
       ∧ ∃ n, stored_count (identifier_of user ip) now c = Some n ∧ limit ≤ n)
  ∧ (∀ fs n,
       faults c = false :: true :: fs → limit ≠ 0 →
       stored_count (identifier_of user ip) now c = Some n → limit ≤ n →
       (canActivate (Some limit) window user ip now c).1 = Activated None).
Proof.
  split; [done|]. split.
  - intros r l w. destruct (decide (limit = 0)) as [->|Hne]; [done|].
    rewrite (canActivate_limited _ _ _ _ _ _ Hne). cbv zeta.
    destruct (checkLimit _ _ _ now c) as [allowed c1] eqn:Echeck.
    destruct allowed; simpl.
    { by destruct (getRemainingRequests _ _ now c1) as [[?|] ?]. }
    pose proof (checkLimit_false_inv (identifier_of user ip) limit
                  (window_or_default window) now c) as Hfalse.
    rewrite Echeck in Hfalse. destruct (Hfalse eq_refl) as [(n & Hn & Hle) Hentries].
    simpl in Hentries.
    unfold getRemainingRequests, getCurrentCount, get.
    pose proof (peek_next_fault (ratelimit_key (identifier_of user ip)) now c1)
      as Hpeek.
    destruct (next_fault c1) as [[] c2]; simpl in *; [done|].
    destruct (next_fault c2) as [[] c3]; simpl in *; [done|].
    rewrite Hpeek, (peek_same_entries _ _ c c1 Hentries).
    unfold stored_count in Hn. rewrite Hn. simpl.
    intros [= <- <- <-]. split; [lia|]. split; [done|]. split; [done|].
    by exists n.
  - intros fs n Hf Hne Hn Hle.
    rewrite (canActivate_limited _ _ _ _ _ _ Hne). cbv zeta.
    unfold checkLimit, get, next_fault, stored_count in *. rewrite Hf. simpl.
    change (peek (ratelimit_key (identifier_of user ip)) now _)
      with (peek (ratelimit_key (identifier_of user ip)) now c).
    rewrite Hn. simpl.
    destruct (Z.leb_spec limit n); [|lia]. simpl.
    unfold getRemainingRequests, get, next_fault. simpl. done.
Qed.

Lemma canActivate_fails_open_witness :
  (canActivate (Some 5) (Some 60) None "10.0.0.1" 0
     (mkCache {[ ratelimit_key "ip:10.0.0.1" := (5, Some 60000) ]}
        [false; true] 1000 false)).1
  = Activated None.
Proof.
  destruct (canActivate_fails_open 5 (Some 60) None "10.0.0.1" 0
              (mkCache {[ ratelimit_key "ip:10.0.0.1" := (5, Some 60000) ]}
                 [false; true] 1000 false)) as (_ & _ & Hopen).
  apply (Hopen [] 5); [reflexivity|lia|vm_compute; reflexivity|lia].
Defined.

End RateLimitGuardFacts.

(** ** Cache coordinator: partial failures and compositions *)

Section CacheServiceMore.
Import CacheManager CacheService.
Context {V : Type}.
Implicit Types (c : Cache V) (k pattern id : string) (now : Z).

(** Whatever the store does, the loop of [invalidatePattern] only ever
    removes keys it was given. *)
Lemma del_each_only_deletes ks : ∀ c k,
  entries (del_each ks c).2 !! k = entries c !! k
  ∨ (entries (del_each ks c).2 !! k = None ∧ k ∈ ks).
Proof.
  induction ks as [|k0 ks IH]; intros c k; simpl; [by left|].
  unfold del. pose proof (entries_next_fault c) as Hentries.
  destruct (next_fault c) as [[] c1]; simpl in *; [left; by rewrite Hentries|].
  destruct (IH (with_entries c1 (delete k0 (entries c1))) k) as [Hsame|[Hnone Hin]].
  - rewrite Hsame. simpl. rewrite Hentries, lookup_delete.
    destruct (decide (k0 = k)) as [->|]; [|by left].
    right. split; [done|]. set_solver.
  - right. split; [done|]. set_solver.
Qed.

(** X6.  Whatever the store does, [invalidatePattern] changes the stored
    entries only by removing keys that contain the pattern and were live
    when it listed the keys: every other key keeps its entry, also when an
    operation throws half-way.  On a healthy store no key containing the
    pattern remains observable. *)
Theorem invalidatePattern_only_removes_matches pattern now c :
  (∀ k, entries (invalidatePattern pattern now c) !! k = entries c !! k
        ∨ (entries (invalidatePattern pattern now c) !! k = None
           ∧ includes k pattern = true ∧ is_Some (peek k now c)))
  ∧ (healthy c → ∀ k later, now ≤ later → includes k pattern = true →
       peek k later (invalidatePattern pattern now c) = None).
Proof.
  split.
  - intros k. unfold invalidatePattern, keys.
    pose proof (entries_next_fault c) as Hentries.
    destruct (next_fault c) as [[] c1]; simpl in *; [left; by rewrite Hentries|].
    destruct (del_each_only_deletes
                (List.filter (λ key, includes key pattern) (live_keys now c1)) c1 k)
      as [Hsame|[Hnone Hin]].
    + left. by rewrite Hsame, Hentries.
    + right. split; [done|].
      apply elem_of_matching in Hin as [Hlive Hinc]. split; [done|].
      apply elem_of_live_keys in Hlive as (v & e & Hk & Hlt).
      unfold peek. rewrite <- Hentries, Hk, Hlt. by eexists.
  - intros Hc k later Hlater Hinc. unfold peek.
    rewrite invalidatePattern_lookup by done.
    destruct (entries c !! k) as [[v e]|]; [|done]. rewrite Hinc. simpl.
    destruct (live now e) eqn:Hlive; [done|].
    by rewrite (live_stays_stale now later e).
Qed.

End CacheServiceMore.

Section CacheServiceSamples.
Import CacheManager CacheService.

Lemma invalidatePattern_only_removes_matches_witness :
  peek "user:u1:messages:c1:page:2" 0
    (invalidatePattern "messages:c1" 0 sample_cache) = None.
Proof.
  destruct (invalidatePattern_only_removes_matches "messages:c1" 0 sample_cache)
    as [_ Hgone].
  apply Hgone; [reflexivity|lia|vm_compute; reflexivity].
Defined.

End CacheServiceSamples.

Section ReadThroughMore.
Import CacheManager CacheService ChatService.
Implicit Types (w : World) (key id : string) (factory : nat → FactoryResult).

(** X8.  On a healthy store, once [invalidateConversation id] has run, a
    [getOrSet] on [conversation:<id>], or on any key that has
    [messages:<id>] or [files:<id>] inside, does not serve what was cached:
    it invokes the factory once and, the result being neither [undefined]
    nor [null], returns it and stores it anew, so that the call after it is
    served that result while the new entry lives. *)
Theorem getOrSet_recomputes_after_invalidation id key factory ttl at_ later w v :
  healthy (cache w) → at_ ≤ later →
  key = "conversation:" +:+ id
  ∨ (∃ pre post, key = pre +:+ "messages:" +:+ id +:+ post)
  ∨ (∃ pre post, key = pre +:+ "files:" +:+ id +:+ post) →
  factory (calls w) = Yields v → v ≠ JUndefined → v ≠ JNull →
  let w1 := mkWorld (invalidateConversation id at_ (cache w)).2 (calls w) in
  let w2 := (getOrSet key factory ttl later w1).2 in
  (getOrSet key factory ttl later w1).1 = Fulfilled v
  ∧ calls w2 = S (calls w)
  ∧ ∀ again, later ≤ again →
      ttl = 0 ∨ again ≤ later + ttl * ttl_unit (cache w) →
      getOrSet key factory ttl again w2 = (Fulfilled v, w2).
Proof.
  intros Hc Hlater Htarget%targeted_spec Hf Hu Hn w1.
  assert (Hp : is_present v = true) by by apply is_present_spec.
  assert (Hc1 : healthy (cache w1)).
  { subst w1. simpl. rewrite invalidateConversation_healthy by done. simpl.
    by do 2 apply invalidatePattern_keeps_health. }
  assert (Hmiss : misses key later w1).
  { unfold misses. subst w1. simpl.
    by rewrite invalidateConversation_peek, Htarget. }
  assert (Hunit : ttl_unit (cache w1) = ttl_unit (cache w)).
  { subst w1. simpl. rewrite invalidateConversation_healthy by done. simpl.
    by rewrite !invalidatePattern_healthy
      by (try apply invalidatePattern_keeps_health; by apply healthy_with_entries). }
  assert (Hcalls : calls w1 = calls w) by done.
  clearbody w1. rewrite <- Hcalls in *.
  rewrite (getOrSet_miss key factory ttl later w1 v Hc1 Hmiss Hf)
    by by apply isCacheable_present.
  simpl. split; [done|]. split; [done|].
  intros again Hagain Hlive. apply getOrSet_hit; [done| |done].
  simpl. rewrite peek_insert, decide_True by done.
  rewrite (proj2 (live_expiry ttl later again (cache w1))); [done|].
  by rewrite Hunit.
Qed.

Lemma getOrSet_recomputes_after_invalidation_witness :
  (getOrSet "user:u1:messages:c1:page:2" (λ _, Yields (JArr [JStr "hello"; JStr "again"]))
     600 5 (mkWorld (invalidateConversation "c1" 0 sample_cache).2 0)).1
  = Fulfilled (JArr [JStr "hello"; JStr "again"]).
Proof.
  exact (proj1 (getOrSet_recomputes_after_invalidation "c1"
                  "user:u1:messages:c1:page:2"
                  (λ _, Yields (JArr [JStr "hello"; JStr "again"])) 600 0 5
                  (mkWorld sample_cache 0) _ eq_refl ltac:(lia)
                  (or_intror (or_introl (ex_intro _ "user:u1:"
                     (ex_intro _ ":page:2" eq_refl))))
                  eq_refl ltac:(discriminate) ltac:(discriminate))).
Defined.

Lemma truthy_present v : truthy v = true → is_present v = true.
Proof. by destruct v. Qed.

(** X9.  [findConversationById] keeps a found conversation under
    [conversation:<id>], a key that does not name the user: on a healthy
    store, after a lookup by a user the repository knows as the owner, a
    lookup of the same id for any other user made before the entry expires
    is answered with that conversation from the cache, and the repository
    is not asked. *)
Theorem findConversationById_serves_any_user findOne id owner other now later w :
  healthy (cache w) → misses (conversation_key id) now w →
  truthy (findOne id owner) = true →
  later < now + 600 * ttl_unit (cache w) →
  let w1 := (findConversationById findOne id owner now w).2 in
  (findConversationById findOne id owner now w).1 = Fulfilled (findOne id owner)
  ∧ findConversationById findOne id other later w1
    = (Fulfilled (findOne id owner), w1)
  ∧ calls w1 = S (calls w).
Proof.
  intros Hc Hmiss Htruthy Hlater w1. subst w1. unfold findConversationById.
  rewrite (getOrSet_miss _ _ _ _ _ (findOne id owner) Hc Hmiss);
    [|by rewrite Htruthy|by apply isCacheable_present, truthy_present].
  simpl. split; [done|]. split; [|done].
  apply getOrSet_hit; [by apply healthy_with_entries| |by apply truthy_present].
  simpl. rewrite peek_insert, decide_True by done.
  rewrite (proj2 (live_expiry 600 now later (cache w))); [done|right; lia].
Qed.

Lemma findConversationById_serves_any_user_witness :
  alices_repository "c1" "mallory" = JNull
  ∧ (findConversationById alices_repository "c1" "mallory" 1000
       (findConversationById alices_repository "c1" "alice" 0 fresh_world).2).1
    = Fulfilled (JArr [JStr "c1"; JStr "alice"; JStr "Holiday plans"]).
Proof.
  split; [reflexivity|].
  destruct (findConversationById_serves_any_user alices_repository "c1" "alice"
              "mallory" 0 1000 fresh_world eq_refl eq_refl eq_refl
              ltac:(simpl; lia)) as (_ & Hother & _).
  by rewrite Hother.
Defined.

End ReadThroughMore.

(** ** Stream registry: unregistering, listing and the sweep *)

Section StreamRegistryMore.
Import CacheManager StreamService.
Implicit Types (c : Cache Stored) (s : StreamInfo) (sid : string) (now : Z).

Lemma stream_key_inj a b : stream_key a = stream_key b → a = b.
Proof. unfold stream_key. simpl. by intros [=]. Qed.

Lemma user_streams_key_not_stream_key u : is_stream_key (user_streams_key u) = false.
Proof. reflexivity. Qed.

Lemma stream_key_is_stream_key sid : is_stream_key (stream_key sid) = true.
Proof. unfold is_stream_key, stream_key. simpl. by destruct sid. Qed.

Lemma well_keyed_lists c u i e :
  well_keyed c → entries c !! user_streams_key u ≠ Some (Session i, e).
Proof.
  intros Hwk Hentry. apply Hwk in Hentry.
  by apply (stream_key_not_user_key (streamId i) u).
Qed.

Lemma well_keyed_peek_list c u now i :
  well_keyed c → peek (user_streams_key u) now c ≠ Some (Session i).
Proof.
  intros Hwk Hpeek. apply peek_Some_entry in Hpeek as (e & Hentry & _).
  by apply (well_keyed_lists c u i e).
Qed.

(** What [unregisterStream] does on a healthy, well-keyed registry: it
    fulfils, keeps the registry healthy and well keyed, removes the entry
    of the stream and leaves the entries of all other streams alone. *)
Lemma unregisterStream_effect sid now c :
  healthy c → well_keyed c →
  (unregisterStream sid now c).1 = Ok tt
  ∧ healthy (unregisterStream sid now c).2
  ∧ well_keyed (unregisterStream sid now c).2
  ∧ ∀ key, is_stream_key key = true →
      entries (unregisterStream sid now c).2 !! key
      = if decide (key = stream_key sid) then None else entries c !! key.
Proof.
  intros Hc Hwk. unfold unregisterStream. rewrite (get_healthy _ _ _ Hc).
  destruct (peek (stream_key sid) now c) as [stream|] eqn:Hstream.
  - set (owner := match stream with Session s => userId s | StreamIds _ => "undefined" end).
    rewrite (get_healthy _ _ _ Hc).
    assert (Hdone : ∀ ids,
      let c' := (del (stream_key sid)
                   (with_entries c
                      (<[user_streams_key owner :=
                           (StreamIds ids, expiry STREAM_TIMEOUT now c)]>
                         (entries c)))).2 in
      (del (stream_key sid)
         (with_entries c
            (<[user_streams_key owner :=
                 (StreamIds ids, expiry STREAM_TIMEOUT now c)]>
               (entries c)))).1 = Ok tt
      ∧ healthy c' ∧ well_keyed c'
      ∧ ∀ key, is_stream_key key = true →
          entries c' !! key
          = if decide (key = stream_key sid) then None else entries c !! key).
    { intros ids. rewrite del_healthy by (by apply healthy_with_entries). simpl.
      split; [done|]. split; [done|]. split.
      - intros key s e. simpl. rewrite lookup_delete.
        destruct (decide (stream_key sid = key)); [done|].
        rewrite lookup_insert. destruct (decide (user_streams_key owner = key)); [done|].
        apply Hwk.
      - intros key Hkey. rewrite lookup_delete.
        destruct (decide (stream_key sid = key)) as [<-|Hne].
        { by rewrite decide_True. }
        rewrite decide_False by done.
        rewrite lookup_insert_ne; [done|]. intros <-. done. }
    destruct (peek (user_streams_key owner) now c) as [[i|ids]|] eqn:Hlist.
    + by destruct (well_keyed_peek_list c owner now i).
    + rewrite (set_plain _ _ _ _ _ Hc). apply Hdone.
    + rewrite (set_plain _ _ _ _ _ Hc). apply Hdone.
  - rewrite (del_healthy _ _ Hc). simpl.
    split; [done|]. split; [done|]. split.
    + intros key s e. simpl. rewrite lookup_delete.
      destruct (decide (stream_key sid = key)); [done|]. apply Hwk.
    + intros key Hkey. rewrite lookup_delete.
      destruct (decide (stream_key sid = key)) as [<-|Hne].
      * by rewrite decide_True.
      * by rewrite decide_False.
Qed.

(** X10.  On a healthy store, unregistering a stream that is not stored
    fulfils and leaves the store exactly as it was. *)
Theorem unregisterStream_unknown_is_noop sid now c :
  healthy c → entries c !! stream_key sid = None →
  unregisterStream sid now c = (Ok tt, c).
Proof.
  intros Hc Hnone. unfold unregisterStream. rewrite (get_healthy _ _ _ Hc).
  unfold peek. rewrite Hnone. rewrite (del_healthy _ _ Hc).
  by rewrite delete_id, with_entries_same.
Qed.

Lemma unregisterStream_unknown_is_noop_witness :
  unregisterStream "no-such-stream" 0 empty_registry = (Ok tt, empty_registry).
Proof. exact (unregisterStream_unknown_is_noop _ 0 empty_registry eq_refl eq_refl). Defined.

(** [registerStream] on a healthy store, in full. *)
Lemma registerStream_healthy uuid user conv now c :
  healthy c → (∀ i, peek (user_streams_key user) now c ≠ Some (Session i)) →
  registerStream uuid user conv now c
  = (Ok uuid,
     with_entries c
       (<[user_streams_key user :=
            (StreamIds (listed_ids user now c ++ [uuid]), expiry STREAM_TIMEOUT now c)]>
          (<[stream_key uuid :=
               (Session (mkStreamInfo uuid user conv now now (now + STREAM_TIMEOUT * 1000)),
                expiry STREAM_TIMEOUT now c)]>
             (entries c)))).
Proof.
  intros Hc Hlist. unfold registerStream, listed_ids.
  rewrite (set_plain _ _ _ _ _ Hc).
  rewrite get_healthy by (by apply healthy_with_entries).
  rewrite peek_insert, decide_False by (apply not_eq_sym, stream_key_not_user_key).
  destruct (peek (user_streams_key user) now c) as [[i|ids]|] eqn:Hpeek;
    [by destruct (Hlist i)| |];
    (unfold mutate; simpl; destruct (shares_objects c);
     rewrite (set_plain (V:=Stored)) by (by repeat apply healthy_with_entries); simpl;
     unfold with_entries; simpl; by rewrite ?insert_alter_eq).
Qed.

Lemma registerStream_well_keyed uuid user conv now c :
  healthy c → well_keyed c →
  healthy (registerStream uuid user conv now c).2
  ∧ well_keyed (registerStream uuid user conv now c).2.
Proof.
  intros Hc Hwk.
  rewrite registerStream_healthy by (done || intros i; by apply well_keyed_peek_list).
  split; [done|]. intros key s e. simpl.
  rewrite lookup_insert. destruct (decide (user_streams_key user = key)); [done|].
  rewrite lookup_insert. destruct (decide (stream_key uuid = key)) as [<-|].
  - by intros [= <- _].
  - apply Hwk.
Qed.

(** The listing loop on a healthy store: what is live under each key, in
    the order of the keys. *)
Lemma fetch_each_healthy ks now : ∀ c,
  healthy c → fetch_each ks now c = (Ok (omap (λ key, peek key now c) ks), c).
Proof.
  induction ks as [|k ks IH]; intros c Hc; simpl; [done|].
  rewrite (get_healthy _ _ _ Hc), (IH c Hc). by destruct (peek k now c).
Qed.

Lemma omap_peek_ext (ks : list string) now c c' :
  (∀ key, key ∈ ks → peek key now c' = peek key now c) →
  omap (λ key, peek key now c') ks = omap (λ key, peek key now c) ks.
Proof.
  induction ks as [|k ks IH]; intros Hext; csimpl; [done|].
  rewrite (Hext k) by set_solver. rewrite IH; [done|].
  intros key Hkey. apply Hext. set_solver.
Qed.

(** X11.  On a healthy, well-keyed registry, unregistering a stream
    while its session is still stored undoes its registration: the call
    fulfils, the session is no longer observable, and the user's list is
    the list from before the registration without that id. *)
Theorem unregisterStream_undoes_registerStream uuid user conv now later c :
  healthy c → well_keyed c →
  now ≤ later → later < now + STREAM_TIMEOUT * ttl_unit c →
  let c1 := (registerStream uuid user conv now c).2 in
  let c2 := (unregisterStream uuid later c1).2 in
  (unregisterStream uuid later c1).1 = Ok tt
  ∧ (∀ t, observed uuid t c2 = None)
  ∧ listed_ids user later c2
    = List.filter (λ sid, negb (bool_decide (sid = uuid))) (listed_ids user now c).
Proof.
  intros Hc Hwk Hnow Hlater c1 c2. subst c2 c1.
  rewrite registerStream_healthy by (done || intros i; by apply well_keyed_peek_list).
  cbn [snd].
  set (info := mkStreamInfo uuid user conv now now (now + STREAM_TIMEOUT * 1000)).
  set (m1 := <[user_streams_key user := _]> (<[stream_key uuid := _]> (entries c))).
  assert (Hs : peek (stream_key uuid) later (with_entries c m1) = Some (Session info)).
  { unfold peek, m1. simpl.
    rewrite lookup_insert_ne by apply stream_key_not_user_key.
    rewrite lookup_insert_eq.
    by rewrite (proj2 (live_expiry STREAM_TIMEOUT now later c)) by (right; lia). }
  assert (Hl : peek (user_streams_key user) later (with_entries c m1)
               = Some (StreamIds (listed_ids user now c ++ [uuid]))).
  { unfold peek, m1. simpl. rewrite lookup_insert_eq.
    by rewrite (proj2 (live_expiry STREAM_TIMEOUT now later c)) by (right; lia). }
  unfold unregisterStream.
  rewrite get_healthy, Hs by done. cbn [userId info].
  rewrite get_healthy, Hl by done.
  rewrite (set_plain (V:=Stored)) by done. rewrite del_healthy by done. simpl.
  split; [done|]. split.
  - intros t. unfold observed, peek. simpl. by rewrite lookup_delete_eq.
  - unfold listed_ids at 1, peek. simpl.
    rewrite lookup_delete_ne by (apply not_eq_sym, stream_key_not_user_key).
    rewrite lookup_insert_eq.
    rewrite live_expiry_now by (simpl; unfold STREAM_TIMEOUT in *; lia).
    rewrite List.filter_app. simpl. rewrite bool_decide_eq_true_2 by done. simpl.
    by rewrite app_nil_r.
Qed.

Lemma unregisterStream_undoes_registerStream_witness :
  observed "7c9e" 1000
    (unregisterStream "7c9e" 1000
       (registerStream "7c9e" "u1" "c1" 0 empty_registry).2).2 = None
  ∧ listed_ids "u1" 1000
      (unregisterStream "7c9e" 1000
         (registerStream "7c9e" "u1" "c1" 0 empty_registry).2).2 = [].
Proof.
  assert (Hwk : well_keyed empty_registry) by (intros key s e; done).
  destruct (unregisterStream_undoes_registerStream "7c9e" "u1" "c1" 0 1000
              empty_registry eq_refl Hwk ltac:(lia) eq_refl)
    as (_ & Hgone & Hlist).
  split; [apply Hgone|exact Hlist].
Defined.

(** X12.  On a healthy, well-keyed registry, after [registerStream] and
    before the new entries expire, [getUserActiveStreams] of that user
    returns the sessions still stored for the ids listed before, in their
    order, followed by the new session. *)
Theorem getUserActiveStreams_after_registerStream uuid user conv now later c :
  healthy c → well_keyed c →
  now ≤ later → later < now + STREAM_TIMEOUT * ttl_unit c →
  uuid ∉ listed_ids user now c →
  (getUserActiveStreams user later (registerStream uuid user conv now c).2).1
  = Ok (omap (λ sid, peek (stream_key sid) later c) (listed_ids user now c)
        ++ [Session (mkStreamInfo uuid user conv now now (now + STREAM_TIMEOUT * 1000))]).
Proof.
  intros Hc Hwk Hnow Hlater Hfresh.
  rewrite registerStream_healthy by (done || intros i; by apply well_keyed_peek_list).
  cbn [snd].
  set (info := mkStreamInfo uuid user conv now now (now + STREAM_TIMEOUT * 1000)).
  set (m1 := <[user_streams_key user := _]> (<[stream_key uuid := _]> (entries c))).
  assert (Hs : peek (stream_key uuid) later (with_entries c m1) = Some (Session info)).
  { unfold peek, m1. simpl.
    rewrite lookup_insert_ne by apply stream_key_not_user_key.
    rewrite lookup_insert_eq.
    by rewrite (proj2 (live_expiry STREAM_TIMEOUT now later c)) by (right; lia). }
  assert (Hl : peek (user_streams_key user) later (with_entries c m1)
               = Some (StreamIds (listed_ids user now c ++ [uuid]))).
  { unfold peek, m1. simpl. rewrite lookup_insert_eq.
    by rewrite (proj2 (live_expiry STREAM_TIMEOUT now later c)) by (right; lia). }
  unfold getUserActiveStreams.
  rewrite get_healthy, Hl by done.
  rewrite fetch_each_healthy by done. cbn [fst].
  f_equal. rewrite map_app, omap_app. f_equal.
  - rewrite (omap_peek_ext _ later c).
    + clear. induction (listed_ids user now c) as [|sid ids IH]; csimpl; [done|].
      by rewrite IH.
    + intros key Hkey. apply list_elem_of_In, in_map_iff in Hkey as (sid & <- & Hsid).
      apply list_elem_of_In in Hsid.
      unfold peek, m1. simpl.
      rewrite lookup_insert_ne by apply stream_key_not_user_key.
      rewrite lookup_insert_ne; [done|].
      intros Heq%stream_key_inj. by subst.
  - csimpl. by rewrite Hs.
Qed.

Lemma getUserActiveStreams_after_registerStream_witness :
  (getUserActiveStreams "u1" 1000
     (registerStream "7c9e" "u1" "c1" 0 empty_registry).2).1
  = Ok [Session (mkStreamInfo "7c9e" "u1" "c1" 0 0 300000)].
Proof.
  assert (Hwk : well_keyed empty_registry) by (intros key s e; done).
  exact (getUserActiveStreams_after_registerStream "7c9e" "u1" "c1" 0 1000
           empty_registry eq_refl Hwk ltac:(lia) eq_refl
           ltac:(apply not_elem_of_nil)).
Defined.

(** The loop of the sweep on a healthy, well-keyed registry. *)
Lemma sweep_effect streams now : ∀ c,
  healthy c → well_keyed c →
  (sweep streams now c).1 = Ok tt
  ∧ healthy (sweep streams now c).2
  ∧ well_keyed (sweep streams now c).2
  ∧ ∀ key, is_stream_key key = true →
      entries (sweep streams now c).2 !! key
      = if swept streams now key then None else entries c !! key.
Proof.
  induction streams as [|[s|ids] rest IH]; intros c Hc Hwk; simpl.
  - done.
  - destruct (Z.leb_spec (expiresAt s) now) as [Hexpired|Hfresh]; simpl.
    + destruct (unregisterStream_effect (streamId s) now c Hc Hwk)
        as (Hok & Hc1 & Hwk1 & Hkeys).
      destruct (unregisterStream (streamId s) now c) as [[[]|] c1]; [|done].
      simpl in *. destruct (IH c1 Hc1 Hwk1) as (Hok' & Hc' & Hwk' & Hkeys').
      split; [done|]. split; [done|]. split; [done|].
      intros key Hkey. rewrite (Hkeys' key Hkey), (Hkeys key Hkey).
      destruct (decide (key = stream_key (streamId s))).
      * rewrite bool_decide_eq_true_2 by done. simpl. by destruct (swept rest now key).
      * by rewrite bool_decide_eq_false_2 by done.
    + by apply IH.
  - by apply IH.
Qed.

(** The streams the sweep is run over. *)
Lemma getAllActiveStreams_healthy now c :
  healthy c →
  getAllActiveStreams now c
  = (Ok (omap (λ key, peek key now c) (List.filter is_stream_key (live_keys now c))), c).
Proof.
  intros Hc. unfold getAllActiveStreams.
  by rewrite (keys_healthy _ _ Hc), fetch_each_healthy.
Qed.

Lemma swept_true streams now key :
  swept streams now key = true
  ↔ ∃ s, Session s ∈ streams ∧ expiresAt s ≤ now ∧ key = stream_key (streamId s).
Proof.
  unfold swept. rewrite existsb_exists. split.
  - intros ([s|ids] & Hin & Hs); [|done].
    apply andb_true_iff in Hs as [Hexp Hkey].
    exists s. split; [by apply list_elem_of_In|].
    split; [lia|by apply bool_decide_eq_true in Hkey].
  - intros (s & Hin & Hexp & ->). exists (Session s).
    split; [by apply list_elem_of_In|].
    apply andb_true_iff. split; [lia|by apply bool_decide_eq_true].
Qed.

(** X13.  On a healthy, well-keyed registry the sweep fulfils, keeps the
    registry healthy and well keyed, and afterwards a session is observable
    exactly when it was observable before and its [expiresAt] lies after
    the instant of the sweep: expired sessions are removed without an
    explicit [unregisterStream], the others are left alone. *)
Theorem cleanupExpiredStreams_removes_expired now c :
  healthy c → well_keyed c →
  (cleanupExpiredStreams now c).1 = Ok tt
  ∧ healthy (cleanupExpiredStreams now c).2
  ∧ well_keyed (cleanupExpiredStreams now c).2
  ∧ ∀ sid later, now ≤ later →
      observed sid later (cleanupExpiredStreams now c).2
      = match observed sid later c with
        | Some s => if expiresAt s <=? now then None else Some s
        | None => None
        end.
Proof.
  intros Hc Hwk. unfold cleanupExpiredStreams.
  rewrite (getAllActiveStreams_healthy _ _ Hc).
  set (streams := omap _ _).
  destruct (sweep_effect streams now c Hc Hwk) as (Hok & Hc' & Hwk' & Hkeys).
  split; [done|]. split; [done|]. split; [done|].
  intros sid later Hlater. unfold observed, peek.
  rewrite (Hkeys _ (stream_key_is_stream_key sid)).
  destruct (entries c !! stream_key sid) as [[[s|ids] e]|] eqn:Hentry.
  2: { destruct (swept _ _ _); simpl; by destruct (live later e). }
  2: { by destruct (swept _ _ _). }
  destruct (live later e) eqn:Hlive.
  2: { destruct (swept _ _ _); [done|]. by rewrite Hlive. }
  pose proof (Hwk _ _ _ Hentry) as Hsid.
  destruct (swept streams now (stream_key sid)) eqn:Hswept.
  - apply swept_true in Hswept as (s' & Hin & Hexp & Hkey).
    apply list_elem_of_omap in Hin as (key' & _ & Hpeek).
    apply peek_Some_entry in Hpeek as (e' & Hentry' & _).
    pose proof (Hwk _ _ _ Hentry') as Hkey'. rewrite <- Hkey in Hkey'. subst key'.
    rewrite Hentry in Hentry'. injection Hentry' as <- <-.
    by destruct (Z.leb_spec (expiresAt s) now); [|lia].
  - simpl. rewrite Hlive.
    destruct (Z.leb_spec (expiresAt s) now) as [Hexp|]; [|done].
    exfalso. apply not_true_iff_false in Hswept. apply Hswept, swept_true.
    exists s. split; [|done].
    apply list_elem_of_omap. exists (stream_key sid). split.
    + apply list_elem_of_In, filter_In. split; [|apply stream_key_is_stream_key].
      apply list_elem_of_In, elem_of_live_keys. exists (Session s), e.
      split; [done|]. by apply (live_mono now later).
    + unfold peek. by rewrite Hentry, (live_mono now later e).
Qed.

Lemma updateActivity_well_keyed sid now c :
  healthy c → well_keyed c →
  healthy (updateActivity sid now c).2 ∧ well_keyed (updateActivity sid now c).2.
Proof.
  intros Hc Hwk. unfold updateActivity. rewrite (get_healthy _ _ _ Hc).
  destruct (peek (stream_key sid) now c) as [[s|ids]|] eqn:Hpeek; [|done|done].
  apply peek_Some_entry in Hpeek as (e0 & Hentry & _).
  pose proof (Hwk _ _ _ Hentry) as Hsid.
  set (write := λ v, match v with Session s0 => Session (touch now s0) | _ => v end).
  assert (Hm : healthy (mutate (stream_key sid) write c)
               ∧ well_keyed (mutate (stream_key sid) write c)).
  { unfold mutate. destruct (shares_objects c); [|done]. split; [done|].
    intros key s' e. simpl. rewrite lookup_alter.
    destruct (decide (stream_key sid = key)) as [<-|]; [|apply Hwk].
    rewrite Hentry. simpl. by intros [= <- _]. }
  destruct Hm as [Hmh Hmwk].
  destruct (shares_objects c); [|done].
  destruct (0 <? _); [|done].
  rewrite (set_plain _ _ _ _ _ Hmh). split; [done|].
  intros key s' e. simpl. rewrite lookup_insert.
  destruct (decide (stream_key sid = key)) as [<-|]; [|apply Hmwk].
  by intros [= <- _].
Qed.

(** X14.  Each session is stored under the key of its own stream id:
    this holds of the empty registry and, on a healthy store, is kept by
    [registerStream], [updateActivity], [unregisterStream] and the sweep,
    which also leave the store healthy. *)
Theorem registry_stays_well_keyed :
  well_keyed empty_registry
  ∧ ∀ c, healthy c → well_keyed c →
      (∀ uuid user conv now,
         healthy (registerStream uuid user conv now c).2
         ∧ well_keyed (registerStream uuid user conv now c).2)
      ∧ (∀ sid now,
           healthy (updateActivity sid now c).2
           ∧ well_keyed (updateActivity sid now c).2)
      ∧ (∀ sid now,
           healthy (unregisterStream sid now c).2
           ∧ well_keyed (unregisterStream sid now c).2)
      ∧ (∀ now,
           healthy (cleanupExpiredStreams now c).2
           ∧ well_keyed (cleanupExpiredStreams now c).2).
Proof.
  split; [intros key s e; done|].
  intros c Hc Hwk. split; [|split; [|split]].
  - intros. by apply registerStream_well_keyed.
  - intros. by apply updateActivity_well_keyed.
  - intros sid now.
    by destruct (unregisterStream_effect sid now c Hc Hwk) as (_ & ? & ? & _).
  - intros now. unfold cleanupExpiredStreams.
    rewrite (getAllActiveStreams_healthy _ _ Hc).
    by destruct (sweep_effect (omap (λ key, peek key now c)
                                 (List.filter is_stream_key (live_keys now c)))
                   now c Hc Hwk) as (_ & ? & ? & _).
Qed.

Lemma registry_stays_well_keyed_witness :
  healthy (registerStream "s1" "u1" "c1" 0 empty_registry).2
  ∧ well_keyed (registerStream "s1" "u1" "c1" 0 empty_registry).2.
Proof.
  destruct registry_stays_well_keyed as [Hempty Hkept].
  destruct (Hkept empty_registry eq_refl Hempty) as (Hregister & _).
  apply Hregister.
Defined.

Lemma cleanupExpiredStreams_removes_expired_witness :
  let c1 := (registerStream "7c9e" "u1" "c1" 0 empty_registry).2 in
  observed "7c9e" 300000 c1 = Some (mkStreamInfo "7c9e" "u1" "c1" 0 0 300000)
  ∧ observed "7c9e" 300000 (cleanupExpiredStreams 300000 c1).2 = None
  ∧ observed "7c9e" 299999 (cleanupExpiredStreams 299999 c1).2
    = Some (mkStreamInfo "7c9e" "u1" "c1" 0 0 300000).
Proof.
  intros c1.
  assert (Hwk0 : well_keyed empty_registry) by (intros key s e; done).
  destruct (registerStream_well_keyed "7c9e" "u1" "c1" 0 empty_registry eq_refl Hwk0)
    as [Hc1 Hwk1].
  destruct (cleanupExpiredStreams_removes_expired 300000 c1 Hc1 Hwk1)
    as (_ & _ & _ & Hswept).
  destruct (cleanupExpiredStreams_removes_expired 299999 c1 Hc1 Hwk1)
    as (_ & _ & _ & Hkept).
  split; [reflexivity|].
  split; [rewrite Hswept by lia|rewrite Hkept by lia]; reflexivity.
Defined.

Lemma ceil_seconds_bounds x : x ≤ ceil_seconds x * 1000 < x + 1000.
Proof.
  unfold ceil_seconds.
  pose proof (Z.div_mod (- x) 1000 ltac:(lia)).
  pose proof (Z.mod_pos_bound (- x) 1000 ltac:(lia)). lia.
Qed.

(** X15.  A keep-alive tick before the session's [expiresAt].  On the
    in-memory store it fulfils and stores the session anew, its last
    activity moved to the tick, under the whole seconds left to [expiresAt]
    as [ttl]: the session is observable for that many ttl units after the
    tick and not after them; as the stores count their [ttl] in
    milliseconds, a session with at most the 300 s timeout left is gone
    300 ms after the tick.  On the Redis store the tick rejects and the
    store is as before. *)
Theorem updateActivity_store_lifetime sid now c s :
  healthy c → observed sid now c = Some s → now < expiresAt s →
  (shares_objects c = true →
     (updateActivity sid now c).1 = Ok tt
     ∧ (∀ later,
          observed sid later (updateActivity sid now c).2
          = if later <=? now + ceil_seconds (expiresAt s - now) * ttl_unit c
            then Some (touch now s) else None)
     ∧ (ttl_unit c = 1 → expiresAt s ≤ now + STREAM_TIMEOUT * 1000 →
        ∀ later, now + 300 < later →
          observed sid later (updateActivity sid now c).2 = None))
  ∧ (shares_objects c = false → updateActivity sid now c = (Throw, c)).
Proof.
  intros Hc Hobs Hlive. split; [|intros Hredis; by apply updateActivity_redis with s].
  intros Hmem. rewrite (updateActivity_memory _ _ _ _ Hc Hmem Hobs).
  pose proof (ceil_seconds_bounds (expiresAt s - now)) as Hceil.
  destruct (Z.ltb_spec 0 (ceil_seconds (expiresAt s - now))) as [Hpos|Hno]; [|lia].
  assert (Hafter : ∀ later,
    observed sid later
      (with_entries c
         (<[stream_key sid :=
              (Session (touch now s),
               expiry (ceil_seconds (expiresAt s - now)) now c)]>
            (alter (λ e, (Session (touch now s), e.2)) (stream_key sid) (entries c))))
    = if later <=? now + ceil_seconds (expiresAt s - now) * ttl_unit c
      then Some (touch now s) else None).
  { intros later. unfold observed, peek. simpl. rewrite lookup_insert_eq.
    unfold expiry. destruct (Z.eqb_spec (ceil_seconds (expiresAt s - now)) 0); [lia|].
    simpl. by destruct (later <=? _). }
  split; [done|]. split; [exact Hafter|].
  intros Hunit Hleft later Hlater. cbv zeta. rewrite Hafter, Hunit.
  destruct (Z.leb_spec later (now + ceil_seconds (expiresAt s - now) * 1));
    [|done].
  unfold STREAM_TIMEOUT in Hleft. lia.
Qed.

Lemma updateActivity_store_lifetime_witness :
  let c1 := (registerStream "7c9e" "u1" "c1" 0 memory_registry).2 in
  let c2 := (registerStream "7c9e" "u1" "c1" 0 redis_registry).2 in
  observed "7c9e" 400 (updateActivity "7c9e" 100 c1).2
  = Some (mkStreamInfo "7c9e" "u1" "c1" 0 100 300000)
  ∧ observed "7c9e" 401 (updateActivity "7c9e" 100 c1).2 = None
  ∧ updateActivity "7c9e" 100 c2 = (Throw, c2).
Proof.
  intros c1 c2.
  destruct (updateActivity_store_lifetime "7c9e" 100 c1
              (mkStreamInfo "7c9e" "u1" "c1" 0 0 300000) eq_refl eq_refl eq_refl)
    as [Hmemory _].
  destruct (Hmemory eq_refl) as (_ & Hat & Hgone).
  destruct (updateActivity_store_lifetime "7c9e" 100 c2
              (mkStreamInfo "7c9e" "u1" "c1" 0 0 300000) eq_refl eq_refl eq_refl)
    as [_ Hredis].
  split; [exact (Hat 400)|].
  split; [apply Hgone; [reflexivity|unfold STREAM_TIMEOUT; simpl; lia|lia]
         |exact (Hredis eq_refl)].
Defined.

Lemma length_omap_all {A B} (f : A → option B) (l : list A) :
  (∀ x, x ∈ l → is_Some (f x)) → length (omap f l) = length l.
Proof.
  induction l as [|x l IH]; intros Hall; csimpl; [done|].
  destruct (Hall x) as [y ->]; [set_solver|]. simpl. f_equal.
  apply IH. intros x' Hx'. apply Hall. set_solver.
Qed.

(** X16.  On a healthy store [getStreamCount] is the number of streams
    [getAllActiveStreams] returns at the same instant. *)
Theorem getStreamCount_counts_listing now c :
  healthy c →
  ∃ streams, (getAllActiveStreams now c).1 = Ok streams
             ∧ (getStreamCount now c).1 = Ok (Z.of_nat (length streams)).
Proof.
  intros Hc. rewrite (getAllActiveStreams_healthy _ _ Hc).
  unfold getStreamCount. rewrite (keys_healthy _ _ Hc). simpl.
  eexists. split; [done|]. do 2 f_equal. symmetry. apply length_omap_all.
  intros key Hkey. apply list_elem_of_In, filter_In in Hkey as [Hlive _].
  apply list_elem_of_In in Hlive.
  apply elem_of_live_keys in Hlive as (v & e & Hentry & Hlt).
  unfold peek. by rewrite Hentry, Hlt.
Qed.

Lemma getStreamCount_counts_listing_witness :
  (getStreamCount 1000 (registerStream "7c9e" "u1" "c1" 0 empty_registry).2).1 = Ok 1.
Proof.
  destruct (getStreamCount_counts_listing 1000
              (registerStream "7c9e" "u1" "c1" 0 empty_registry).2 eq_refl)
    as (streams & Hlist & Hcount).
  vm_compute in Hlist. injection Hlist as <-. exact Hcount.
Defined.

End StreamRegistryMore.

(** ** Gateway relay: the shape of a run of the retry wrapper *)

Section RetryMore.
Import AiGatewayService.
Implicit Types (engine : Z → Upstream) (externalSignal : option AbortSignal).

(** X17.  A call entered at attempt 1 always settles, after one, two or
    three attempts and never more; the second attempt starts 1000 ms after
    the first has failed and the third 2000 ms after the second has failed;
    and the call settles when and as its last attempt does, the second and
    third attempts being made without the caller's signal. *)
Theorem callAIEngineWithRetry_at_most_three_attempts engine externalSignal now :
  ∃ r, callAIEngineWithRetry engine 1 externalSignal now = Some r
  ∧ ((events r = [Attempt 1 now]
      ∧ axios_post now externalSignal (engine 1) = (settled_at r, outcome r))
     ∨ (∃ t1, events r = [Attempt 1 now; Delay t1 1000; Attempt 2 (t1 + 1000)]
              ∧ axios_post (t1 + 1000) None (engine 2) = (settled_at r, outcome r))
     ∨ (∃ t1 t2, events r = [Attempt 1 now; Delay t1 1000; Attempt 2 (t1 + 1000);
                             Delay t2 2000; Attempt 3 (t2 + 2000)]
                 ∧ axios_post (t2 + 2000) None (engine 3) = (settled_at r, outcome r))).
Proof.
  rewrite (callAIEngineWithRetry_unfold engine 1).
  destruct (axios_post now externalSignal (engine 1)) as [t1 [resp1|e1]] eqn:H1.
  { eexists. split; [done|]. by left. }
  destruct (is_cancellation e1); [eexists; split; [done|]; by left|].
  destruct (is_client_error e1); [eexists; split; [done|]; by left|].
  change (1 <? MAX_RETRIES) with true. change (retry_delay 1) with 1000. cbv iota.
  change (1 + 1) with 2.
  rewrite (callAIEngineWithRetry_unfold engine 2).
  destruct (axios_post (t1 + 1000) None (engine 2)) as [t2 [resp2|e2]] eqn:H2.
  { eexists. split; [done|]. right. left. by exists t1. }
  destruct (is_cancellation e2);
    [eexists; split; [done|]; right; left; by exists t1|].
  destruct (is_client_error e2);
    [eexists; split; [done|]; right; left; by exists t1|].
  change (2 <? MAX_RETRIES) with true. change (retry_delay 2) with 2000. cbv iota.
  change (2 + 1) with 3.
  rewrite (callAIEngineWithRetry_unfold engine 3).
  destruct (axios_post (t2 + 2000) None (engine 3)) as [t3 [resp3|e3]] eqn:H3.
  { eexists. split; [done|]. right. right. by exists t1, t2. }
  destruct (is_cancellation e3);
    [eexists; split; [done|]; right; right; by exists t1, t2|].
  destruct (is_client_error e3);
    [eexists; split; [done|]; right; right; by exists t1, t2|].
  change (3 <? MAX_RETRIES) with false. cbv iota.
  eexists. split; [done|]. right. right. by exists t1, t2.
Qed.

(** A run depends on the caller's signal only through its first attempt. *)
Lemma callAIEngineWithRetry_signal_first_attempt engine sig sig' now :
  axios_post now sig (engine 1) = axios_post now sig' (engine 1) →
  callAIEngineWithRetry engine 1 sig now = callAIEngineWithRetry engine 1 sig' now.
Proof.
  intros Hsame. rewrite !(callAIEngineWithRetry_unfold engine 1). by rewrite Hsame.
Qed.

(** X18.  When the caller's signal fires once the first attempt has
    settled, during a backoff delay or a later attempt, the run is the one
    of a caller that never disconnects: the retries are made and none of
    them is aborted by that signal. *)
Theorem disconnect_after_first_attempt_changes_nothing engine now fired :
  now + latency (engine 1) ≤ fired →
  callAIEngineWithRetry engine 1 (Some (mkSignal (Some fired))) now
  = callAIEngineWithRetry engine 1 None now.
Proof.
  intros Hfired. apply callAIEngineWithRetry_signal_first_attempt.
  unfold axios_post, abort_time.
  destruct (Z.leb_spec now fired); [|done].
  destruct (Z.ltb_spec (Z.min fired (now + AI_ENGINE_TIMEOUT)) (now + latency (engine 1)));
    destruct (Z.ltb_spec (now + AI_ENGINE_TIMEOUT) (now + latency (engine 1)));
    try lia; [|done].
  f_equal. lia.
Qed.

Lemma disconnect_after_first_attempt_changes_nothing_witness :
  callAIEngineWithRetry recovering_engine 1 (Some (mkSignal (Some 1150))) 0
  = callAIEngineWithRetry recovering_engine 1 None 0.
Proof.
  apply disconnect_after_first_attempt_changes_nothing. simpl. lia.
Defined.

End RetryMore.

(** ** Gateway relay: what the subscriber receives *)

Section RelayMore.
Import CacheManager AiGatewayService.

Lemma on_lines_frames lines : ∀ full,
  on_lines lines full
  = (List.map (λ f, Next (Forwarded f.2)) (frames_of [lines]),
     full ++ concat (List.map (λ f, default [] f.1) (frames_of [lines]))).
Proof.
  unfold frames_of. simpl. rewrite app_nil_r.
  induction lines as [|line lines IH]; intros full; csimpl.
  - by rewrite app_nil_r.
  - destruct line as [content json| | |]; csimpl; rewrite IH; [|done..].
    by rewrite <- app_assoc.
Qed.

Lemma on_data_frames chunks : ∀ full,
  on_data chunks full
  = (List.map (λ f, Next (Forwarded f.2)) (frames_of chunks),
     full ++ concat (List.map (λ f, default [] f.1) (frames_of chunks))).
Proof.
  induction chunks as [|chunk chunks IH]; intros full; simpl.
  - by rewrite app_nil_r.
  - rewrite on_lines_frames, IH. unfold frames_of. simpl.
    rewrite app_nil_r, omap_app, !map_app, concat_app. by rewrite app_assoc.
Qed.

Lemma on_data_not_terminal chunks full :
  forallb (λ e, negb (is_terminal_emission e)) (on_data chunks full).1 = true.
Proof.
  rewrite on_data_frames. simpl.
  induction (frames_of chunks) as [|f fs IH]; simpl; [done|exact IH].
Qed.

Lemma del_each_removes {V} ks (c : Cache V) key :
  healthy c → key ∈ ks →
  (CacheService.del_each ks c).1 = Ok tt
  ∧ entries (CacheService.del_each ks c).2 !! key = None.
Proof.
  intros Hc Hin. rewrite del_each_healthy by done. simpl.
  split; [done|]. by apply lookup_foldr_delete.
Qed.

(** X20.  On a healthy store [streamChat] always settles, and in one of
    two ways.  Either nothing is left unhandled: then the tracking entry
    [stream:<streamId>] has been removed, and the subscriber has received
    forwarded frames, if any, followed by exactly one ending, a bare
    completion, an error event with the observer's error, or a done event
    with the completion.  Or the assistant message could not be saved when
    the stream ended: then the subscriber has received forwarded frames
    only. *)
Theorem streamChat_endings chat engine signal userId message conversationId now c :
  healthy c →
  ∃ r, streamChat chat engine signal userId message conversationId now c = Some r
  ∧ ((unhandled r = None
      ∧ entries (store r) !! stream_key (userId +:+ "-" +:+ pretty now) = None
      ∧ ∃ forwarded ending,
          emitted r = forwarded ++ ending
          ∧ forallb (λ e, negb (is_terminal_emission e)) forwarded = true
          ∧ Ending ending)
     ∨ (∃ e conversation fullResponse,
          unhandled r = Some e
          ∧ saveMessage chat conversation ASSISTANT fullResponse = Rejected e
          ∧ forallb (λ e, negb (is_terminal_emission e)) (emitted r) = true)).
Proof.
  intros Hc. unfold streamChat.
  set (streamId := userId +:+ "-" +:+ pretty now).
  rewrite (set_plain _ _ _ _ _ Hc).
  set (c1 := with_entries c _).
  assert (Hc1 : healthy c1) by done.
  assert (Hrecover : ∀ e,
            ∃ r, Some (recover e streamId c1) = Some r
            ∧ ((unhandled r = None
                ∧ entries (store r) !! stream_key streamId = None
                ∧ ∃ forwarded ending,
                    emitted r = forwarded ++ ending
                    ∧ forallb (λ e, negb (is_terminal_emission e)) forwarded = true
                    ∧ Ending ending)
               ∨ (∃ e conversation fullResponse,
                    unhandled r = Some e
                    ∧ saveMessage chat conversation ASSISTANT fullResponse = Rejected e
                    ∧ forallb (λ e, negb (is_terminal_emission e)) (emitted r) = true))).
  { intros e. eexists. split; [done|]. left. unfold recover.
    rewrite (del_healthy _ _ Hc1). destruct (is_cancellation e); simpl.
    - split; [done|]. split; [by rewrite lookup_delete_eq|].
      exists [], [Complete]. repeat split. constructor.
    - split; [done|]. split; [by rewrite lookup_delete_eq|].
      exists [], [Next (ErrorEvent (errorMessage e)); Error e]. repeat split.
      constructor. }
  destruct (match conversationId with
            | Some id => findConversationById chat id userId
            | None => createConversation chat userId (generateTitleFromMessage message)
            end) as [conversation|e]; [|apply Hrecover].
  destruct (saveMessage chat conversation USER message) as [[]|e]; [|apply Hrecover].
  destruct (getConversationMessages chat conversation) as [history|e];
    [|apply Hrecover].
  destruct (callAIEngineWithRetry_total engine 1 (Some signal) now) as [run ->].
  destruct (outcome run) as [response|e]; [|apply Hrecover].
  pose proof (on_data_not_terminal (chunks response) []) as Hforwarded.
  destruct (on_data (chunks response) []) as [out fullResponse]. simpl in Hforwarded.
  eexists. split; [done|]. simpl.
  destruct (finish response) as [|e].
  - unfold on_end.
    destruct (saveMessage chat conversation ASSISTANT fullResponse) as [[]|e] eqn:Hsave.
    + destruct (del_each_removes
                  [ "conversation:" +:+ conversation; "messages:" +:+ conversation;
                    "conversations:" +:+ userId; stream_key streamId ] c1
                  (stream_key streamId) Hc1 ltac:(set_solver)) as [Hok Hgone].
      destruct (CacheService.del_each _ c1) as [[[]|] c2]; [|done]. simpl in *.
      left. split; [done|]. split; [done|].
      eexists out, _. split; [done|]. split; [done|]. constructor.
    + right. exists e, conversation, fullResponse. simpl.
      split; [done|]. split; [done|]. by rewrite app_nil_r.
  - unfold on_error. rewrite (del_healthy _ _ Hc1). simpl.
    left. split; [done|]. split; [by rewrite lookup_delete_eq|].
    eexists out, _. split; [done|]. split; [done|]. constructor.
Qed.

Lemma streamChat_endings_witness :
  ∃ r, streamChat (chat_refusing None) answering_engine (mkSignal None)
         "u1" (of_string "Hello") (Some "c1") 0 empty_tracking = Some r
       ∧ emitted r = [Next (Forwarded "{content:Hello}");
                      Next (DoneEvent "c1" 100); Complete]
       ∧ entries (store r) !! stream_key "u1-0" = None.
Proof.
  destruct (streamChat_endings (chat_refusing None) answering_engine (mkSignal None)
              "u1" (of_string "Hello") (Some "c1") 0 empty_tracking eq_refl)
    as (r & Hr & Hcases).
  exists r. split; [exact Hr|].
  vm_compute in Hr. injection Hr as <-. split; reflexivity.
Defined.

End RelayMore.

(** ** Gateway relay: more on titles *)

Section TitleMore.
Import AiGatewayService.
Implicit Types (s : jsstring) (c : N).

Lemma truncate_title_length s : (length (truncate_title s) ≤ 53)%nat.
Proof.
  unfold truncate_title.
  destruct (Z.leb_spec (Z.of_nat (length s)) 50); [lia|].
  destruct (30 <? _); rewrite length_app, ?length_take;
    change (length ellipsis) with 3%nat; lia.
Qed.

Lemma truncate_title_nil s : truncate_title s = [] → s = [].
Proof.
  unfold truncate_title.
  destruct (Z.leb_spec (Z.of_nat (length s)) 50) as [|Hlong]; [done|].
  destruct (30 <? _); intros Hnil; apply (f_equal length) in Hnil;
    rewrite length_app in Hnil; change (length ellipsis) with 3%nat in Hnil;
    simpl in Hnil; lia.
Qed.

(** X21.  A title never has more than 60 characters, and it is empty
    exactly when the message is empty or all white space. *)
Theorem generateTitleFromMessage_bounds message :
  (length (generateTitleFromMessage message) ≤ 60)%nat
  ∧ (generateTitleFromMessage message = [] ↔ normalize message = []).
Proof.
  rewrite generateTitleFromMessage_cases.
  destruct (first_terminal (normalize message)) as [[|i]|] eqn:Hf.
  - pose proof (truncate_title_length (normalize message)).
    split; [lia|]. split; [apply truncate_title_nil|].
    intros Hnil. by rewrite Hnil in Hf.
  - destruct (first_terminal_Some _ _ Hf) as (mark & _ & _ & Hlen).
    destruct (Nat.ltb_spec (S i) 60).
    + split; [rewrite length_take; lia|].
      destruct (normalize message); [simpl in Hlen; lia|]. done.
    + pose proof (truncate_title_length (normalize message)).
      split; [lia|]. split; [apply truncate_title_nil|].
      intros Hnil. by rewrite Hnil in Hf.
  - pose proof (truncate_title_length (normalize message)).
    split; [lia|]. split; [apply truncate_title_nil|].
    intros ->. reflexivity.
Qed.

Lemma squeeze_last s : ∀ in_run c,
  is_space c = false → squeeze in_run (s ++ [c]) = squeeze in_run s ++ [c].
Proof.
  induction s as [|a s IH]; intros in_run c Hc; simpl.
  - by rewrite Hc.
  - destruct (is_space a); [destruct in_run|]; by rewrite IH.
Qed.

(** After a white-space unit has just been squeezed, the output does not
    start with a space; and the output holds no other white space than
    single plain spaces. *)
Lemma squeeze_shape s : ∀ in_run,
  (in_run = true → ∀ c r, squeeze in_run s = c :: r → is_space c = false)
  ∧ (∀ c, c ∈ squeeze in_run s → is_space c = true → c = 32%N)
  ∧ (∀ i, squeeze in_run s !! i = Some 32%N → squeeze in_run s !! S i ≠ Some 32%N).
Proof.
  induction s as [|a s IH]; intros in_run; simpl.
  { split; [done|]. split; [intros c Hc; by apply elem_of_nil in Hc|done]. }
  destruct (is_space a) eqn:Ha.
  - destruct (IH true) as (Hhead & Hall & Hadj). destruct in_run.
    + split; [intros _; by apply Hhead|]. by split.
    + split; [done|]. split.
      * intros c [->|Hc]%elem_of_cons; [done|by apply Hall].
      * intros [|i] Hi; simpl in *; [|by apply Hadj].
        destruct (squeeze true s) as [|c r] eqn:Hs; [done|]. simpl.
        intros [= ->]. by pose proof (Hhead eq_refl _ _ eq_refl).
  - destruct (IH false) as (_ & Hall & Hadj).
    split; [by intros _ c r [= <- _]|]. split.
    + intros c [->|Hc]%elem_of_cons; [by rewrite Ha|by apply Hall].
    + intros [|i] Hi; simpl in *; [|by apply Hadj].
      injection Hi as ->. done.
Qed.

Lemma trim_last s : trim s = [] ∨ ∃ pre c, trim s = pre ++ [c] ∧ is_space c = false.
Proof.
  unfold trim. destruct (trim_start (rev (trim_start s))) as [|c r] eqn:Hs; [by left|].
  right. exists (rev r), c. split; [done|]. by apply (trim_start_head _ _ _ Hs).
Qed.

Lemma normalize_parts message :
  (normalize message = []
   ∨ ∃ first middle, normalize message = first :: middle ∧ is_space first = false)
  ∧ (normalize message = []
     ∨ ∃ front final, normalize message = front ++ [final] ∧ is_space final = false)
  ∧ (∀ c, c ∈ normalize message → is_space c = true → c = 32%N)
  ∧ (∀ i, normalize message !! i = Some 32%N → normalize message !! S i ≠ Some 32%N).
Proof.
  split; [apply normalize_head|]. split.
  - unfold normalize. destruct (trim_last message) as [->|(pre & c & -> & Hc)].
    + by left.
    + right. exists (squeeze false pre), c. by rewrite squeeze_last.
  - unfold normalize. by destruct (squeeze_shape (trim message) false) as (_ & ? & ?).
Qed.

(** X22.  The normalised message does not start or end with white
    space, holds no white space other than plain spaces, and never two
    spaces in a row. *)
Theorem normalize_shape message :
  (normalize message = []
   ∨ ∃ first middle, normalize message = first :: middle ∧ is_space first = false)
  ∧ (normalize message = []
     ∨ ∃ front final, normalize message = front ++ [final] ∧ is_space final = false)
  ∧ (∀ c, c ∈ normalize message → is_space c = true → c = 32%N)
  ∧ (∀ i, normalize message !! i = Some 32%N → normalize message !! S i ≠ Some 32%N).
Proof. apply normalize_parts. Qed.

Lemma squeeze_fixed s : ∀ in_run,
  (in_run = true → ∀ c r, s = c :: r → is_space c = false) →
  (∀ c, c ∈ s → is_space c = true → c = 32%N) →
  (∀ i, s !! i = Some 32%N → s !! S i ≠ Some 32%N) →
  squeeze in_run s = s.
Proof.
  induction s as [|a s IH]; intros in_run Hhead Hall Hadj; simpl; [done|].
  assert (Hall' : ∀ c, c ∈ s → is_space c = true → c = 32%N)
    by (intros c Hc; apply Hall; set_solver).
  assert (Hadj' : ∀ i, s !! i = Some 32%N → s !! S i ≠ Some 32%N)
    by (intros i Hi; by apply (Hadj (S i))).
  destruct (is_space a) eqn:Ha.
  - destruct in_run; [by rewrite (Hhead eq_refl a s eq_refl) in Ha|].
    rewrite (Hall a) by (done || set_solver). f_equal.
    apply IH; [|done|done].
    intros _ c r ->. destruct (is_space c) eqn:Hc; [|done].
    exfalso. apply (Hadj 0%nat); simpl.
    + f_equal. apply Hall; [set_solver|done].
    + f_equal. apply Hall; [set_solver|done].
  - f_equal. by apply IH.
Qed.

(** X23.  Normalising is idempotent: a normalised message is its own
    normal form. *)
Theorem normalize_idempotent message :
  normalize (normalize message) = normalize message.
Proof.
  destruct (normalize_parts message) as (Hfirst & Hlast & Hall & Hadj).
  unfold normalize at 1.
  assert (Htrim : trim (normalize message) = normalize message).
  { destruct Hfirst as [->|(first & middle & Hm & Hf)]; [done|].
    destruct Hlast as [Hnil|(front & final & Hl & Hfinal)]; [by rewrite Hnil|].
    apply (trim_id first middle final Hf Hfinal _ Hm). by exists front. }
  rewrite Htrim. by apply squeeze_fixed.
Qed.

End TitleMore.

(** ** Gateway relay: the relay by the outcome of the upstream call *)

Section RelayPaths.
Import CacheManager AiGatewayService.

(** [streamChat] once the collaborator calls before the upstream call
    have succeeded. *)
Lemma streamChat_ready chat engine signal userId message conversationId now c conversation :
  healthy c → ready chat userId message conversationId conversation →
  let streamId := userId +:+ "-" +:+ pretty now in
  let c1 := with_entries c
              (<[stream_key streamId :=
                   (mkTracking userId conversationId now, expiry 300 now c)]>
                 (entries c)) in
  streamChat chat engine signal userId message conversationId now c
  = match callAIEngineWithRetry engine 1 (Some signal) now with
    | None => None
    | Some run =>
        match outcome run with
        | Rejected e => Some (recover e streamId c1)
        | Resolved response =>
            let (out, fullResponse) := on_data (chunks response) [] in
            let last :=
              match finish response with
              | Ends => on_end chat conversation userId streamId fullResponse
                          (settled_at run) c1
              | Breaks e => on_error e streamId c1
              end in
            Some (mkRelay (out ++ emitted last) (store last) (unhandled last))
        end
    end.
Proof.
  intros Hc (Hconv & Huser & history & Hhistory). cbv zeta.
  unfold streamChat, resolve_conversation in *.
  by rewrite (set_plain _ _ _ _ _ Hc), Hconv, Huser, Hhistory.
Qed.

(** X24.  When the caller disconnects while the first attempt is in
    flight, the relay completes without any content, done or error event,
    leaves nothing unhandled and removes its tracking entry. *)
Theorem streamChat_disconnect_in_flight
    chat engine fired userId message conversationId now c conversation :
  healthy c → ready chat userId message conversationId conversation →
  now ≤ fired → fired < now + latency (engine 1) → fired < now + AI_ENGINE_TIMEOUT →
  ∃ r, streamChat chat engine (mkSignal (Some fired)) userId message
         conversationId now c = Some r
       ∧ emitted r = [Complete] ∧ unhandled r = None
       ∧ entries (store r) !! stream_key (userId +:+ "-" +:+ pretty now) = None.
Proof.
  intros Hc Hready Hafter Hflight Htimer.
  rewrite (streamChat_ready _ _ _ _ _ _ _ _ _ Hc Hready).
  rewrite callAIEngineWithRetry_unfold. unfold axios_post, abort_time.
  destruct (Z.leb_spec now fired); [|lia]. rewrite Z.min_l by lia.
  destruct (Z.ltb_spec fired (now + latency (engine 1))); [|lia]. simpl.
  eexists. split; [done|]. unfold recover.
  rewrite del_healthy by done. simpl. by rewrite lookup_delete_eq.
Qed.

Lemma streamChat_disconnect_in_flight_witness :
  ∃ r, streamChat (chat_refusing None) slow_engine (mkSignal (Some 2500))
         "u1" (of_string "Hello") (Some "c1") 0 empty_tracking = Some r
       ∧ emitted r = [Complete].
Proof.
  destruct (streamChat_disconnect_in_flight (chat_refusing None) slow_engine 2500
              "u1" (of_string "Hello") (Some "c1") 0 empty_tracking "c1" eq_refl)
    as (r & Hr & Hemitted & _).
  - split; [done|]. split; [done|]. by exists [].
  - lia.
  - simpl. lia.
  - unfold AI_ENGINE_TIMEOUT. lia.
  - by exists r.
Defined.



(** X26.  When the upstream call fails for good, the subscriber gets no
    content: a cancellation ends the relay with a bare completion, any
    other error with one error event, whose text is chosen by
    [errorMessage], followed by the observer's error; the tracking entry is
    removed either way. *)
Theorem streamChat_upstream_failure
    chat engine signal userId message conversationId now c conversation run e :
  healthy c → ready chat userId message conversationId conversation →
  callAIEngineWithRetry engine 1 (Some signal) now = Some run →
  outcome run = Rejected e →
  ∃ r, streamChat chat engine signal userId message conversationId now c = Some r
       ∧ emitted r = (if is_cancellation e then [Complete]
                      else [Next (ErrorEvent (errorMessage e)); Error e])
       ∧ unhandled r = None
       ∧ entries (store r) !! stream_key (userId +:+ "-" +:+ pretty now) = None.
Proof.
  intros Hc Hready Hrun Hout.
  rewrite (streamChat_ready _ _ _ _ _ _ _ _ _ Hc Hready), Hrun, Hout.
  eexists. split; [done|]. unfold recover. rewrite del_healthy by done.
  destruct (is_cancellation e); simpl; by rewrite lookup_delete_eq.
Qed.

Lemma streamChat_upstream_failure_witness :
  ∃ r, streamChat (chat_refusing None) (λ _, mkUpstream 100 (Rejected ServiceUnavailable))
         (mkSignal None) "u1" (of_string "Hello") (Some "c1") 0 empty_tracking = Some r
       ∧ emitted r = [Next (ErrorEvent "Request failed with status code 503");
                      Error ServiceUnavailable].
Proof.
  destruct (streamChat_upstream_failure (chat_refusing None)
              (λ _, mkUpstream 100 (Rejected ServiceUnavailable))
              (mkSignal None) "u1" (of_string "Hello") (Some "c1") 0 empty_tracking "c1"
              (mkRun [Attempt 1 0; Delay 100 1000; Attempt 2 1100; Delay 1200 2000;
                      Attempt 3 3200] 3300 (Rejected ServiceUnavailable))
              ServiceUnavailable eq_refl)
    as (r & Hr & Hemitted & _).
  - split; [done|]. split; [done|]. by exists [].
  - reflexivity.
  - reflexivity.
  - by exists r.
Defined.

End RelayPaths.

(** ** Reconnection and demo limits *)

Section ConfigurationFacts.
Import AppModule DemoService.

(** X27.  The reconnection strategy gives up exactly after more than ten
    retries; until then it waits 100 ms per retry made, so never more than
    1000 ms: the cap of 3000 ms is never the delay returned. *)
Theorem reconnectStrategy_delays retries :
  (reconnectStrategy retries = GiveUp ↔ 10 < retries)
  ∧ ∀ delay, reconnectStrategy retries = ReconnectAfter delay →
      delay = retries * 100 ∧ delay ≤ 1000.
Proof.
  unfold reconnectStrategy. destruct (Z.ltb_spec 10 retries).
  - split; [done|]. done.
  - split; [split; [done|lia]|]. intros delay [= <-]. lia.
Qed.

(** X28.  For a count that is not negative, [createConversation] refuses
    exactly when [getDemoStats] reports the limit reached, which is exactly
    when it reports no remaining slot; a conversation it creates is
    numbered between 1 and 10, and the remaining slots and the count add up
    to the maximum while the limit is not reached. *)
Theorem demo_limit_is_consistent count :
  0 ≤ count →
  (isLimitReached (getDemoStats count) = true
   ↔ createConversation count = LimitReached count MAX_CONVERSATIONS)
  ∧ (isLimitReached (getDemoStats count) = true
     ↔ remainingSlots (getDemoStats count) = 0)
  ∧ (∀ n, createConversation count = DemoChat n →
       1 ≤ n ≤ MAX_CONVERSATIONS
       ∧ remainingSlots (getDemoStats count) + count = MAX_CONVERSATIONS).
Proof.
  intros Hcount. unfold createConversation, getDemoStats, MAX_CONVERSATIONS. simpl.
  destruct (Z.leb_spec 10 count).
  - split; [done|]. split; [split; [lia|done]|done].
  - split; [done|]. split; [split; [done|lia]|]. intros n [= <-]. lia.
Qed.

Lemma demo_limit_is_consistent_witness :
  createConversation 10 = LimitReached 10 10
  ∧ remainingSlots (getDemoStats 10) = 0.
Proof.
  destruct (demo_limit_is_consistent 10 ltac:(lia)) as (Hcreate & Hslots & _).
  split; [by apply Hcreate|by apply Hslots].
Defined.

End ConfigurationFacts.
